(** * mcech::memory::PoolAllocator — a shallow embedding and its properties

    The development follows [PoolAllocator.h]: a storage cell ([Node]) with
    a [next] link and a [pool] back-reference, a per-thread [Pool] whose
    only field is the atomic [sentinel], and the facade functions
    [allocate], [deallocate], [clear] and [operator==].

    Pointers are block identifiers; [nullptr] is [None].  The heap is a
    finite map from block identifiers to blocks, the thread-local pools are
    a finite map from thread identifiers to the value of their [sentinel].
    The system allocator ([::operator new], [::operator delete]) is an
    external collaborator: its answers are read from an oracle carried by
    the state, and every call made to it is appended to a trace. *)

From stdpp Require Import gmap list.

Set Default Proof Using "Type".

(** ** Machine integers *)

(** [size_t] is a 64-bit unsigned integer; multiplication wraps. *)
Definition size_max : Z := (2 ^ 64)%Z.

Definition size_mul (a b : Z) : Z := ((a * b) mod size_max)%Z.

(** ** Element types

    The template parameter [T] enters the code only through
    [sizeof(value_type)] and [sizeof(Node)]. *)
Record ElemType := {
  sizeof_value_type : Z;
  sizeof_Node : Z
}.

(** [int] on an LP64 platform: [Node] is a union of an [int] and a pointer
    followed by a pointer. *)
Definition int_LP64 : ElemType :=
  {| sizeof_value_type := 4%Z; sizeof_Node := 16%Z |}.

(** ** Memory *)

Abbreviation addr := positive (only parsing).
Abbreviation tid := positive (only parsing).
Abbreviation ptr := (option positive) (only parsing).

Definition nullptr : ptr := None.

(** A block handed out by [::operator new].  [bytes] is the size that was
    requested.  [next] and [pool] are the two fields of [Node] when the
    block is used as a cell; [None] means the field has an indeterminate
    value (it was never written). *)
Record Block := {
  bytes : Z;
  next : option ptr;
  pool : option tid
}.

Inductive SysCall :=
| New (size : Z) (result : addr)
| NewFailed (size : Z)
| Delete (p : addr) (size : option Z).

Record State := {
  heap : gmap positive Block;
  sentinel : gmap positive positive;
  exited : gset positive;
  oracle : list ptr;
  trace : list SysCall
}.

Definition initial (o : list ptr) : State :=
  {| heap := ∅; sentinel := ∅; exited := ∅; oracle := o; trace := [] |}.

Definition set_heap (h : gmap positive Block) (s : State) : State :=
  {| heap := h; sentinel := sentinel s; exited := exited s;
     oracle := oracle s; trace := trace s |}.

Definition set_sentinel (m : gmap positive positive) (s : State) : State :=
  {| heap := heap s; sentinel := m; exited := exited s;
     oracle := oracle s; trace := trace s |}.

Definition set_exited (e : gset positive) (s : State) : State :=
  {| heap := heap s; sentinel := sentinel s; exited := e;
     oracle := oracle s; trace := trace s |}.

(** The state with the system allocator's part replaced. *)
Definition set_sys (o : list ptr) (tr : list SysCall) (s : State) : State :=
  {| heap := heap s; sentinel := sentinel s; exited := exited s;
     oracle := o; trace := tr |}.

(** ** Results and the state monad *)

(** [bad_alloc] is the exception of [::operator new]; it keeps the state in
    which it was thrown.  [undefined] stands for undefined behaviour (a
    read of an indeterminate field, an access to a released block or to a
    destroyed pool).  [timeout] is returned by a loop that ran out of
    fuel. *)
Inductive res (A : Type) :=
| Ok (a : A) (s : State)
| bad_alloc (s : State)
| undefined
| timeout.
Arguments Ok {A} a s.
Arguments bad_alloc {A} s.
Arguments undefined {A}.
Arguments timeout {A}.

Definition M (A : Type) : Type := State → res A.

#[global] Instance M_ret : MRet M := λ A a s, Ok a s.

#[global] Instance M_bind : MBind M := λ A B f m s,
  match m s with
  | Ok a s' => f a s'
  | bad_alloc s' => bad_alloc s'
  | undefined => undefined
  | timeout => timeout
  end.

Definition fail_undefined {A} : M A := λ _, undefined.

(** ** Fields of a cell *)

Definition get_block (a : addr) : M Block := λ s,
  match heap s !! a with
  | Some b => Ok b s
  | None => undefined
  end.

Definition put_block (a : addr) (b : Block) : M unit := λ s,
  Ok tt (set_heap (<[a := b]> (heap s)) s).

(** [node->next] as an rvalue. *)
Definition read_next (a : addr) : M ptr :=
  b ← get_block a;
  match next b with
  | Some p => mret p
  | None => fail_undefined
  end.

(** [node->next = p]. *)
Definition write_next (a : addr) (p : ptr) : M unit :=
  b ← get_block a;
  put_block a {| bytes := bytes b; next := Some p; pool := pool b |}.

(** [node->pool] as an rvalue. *)
Definition read_pool (a : addr) : M tid :=
  b ← get_block a;
  match pool b with
  | Some t => mret t
  | None => fail_undefined
  end.

(** [node->pool = t]. *)
Definition write_pool (a : addr) (t : tid) : M unit :=
  b ← get_block a;
  put_block a {| bytes := bytes b; next := next b; pool := Some t |}.

(** ** The system allocator *)

(** [::operator new(sz)].  The next answer of the oracle is consumed: no
    answer left, the answer [None], or an address that is still live all
    mean that the request cannot be satisfied and [bad_alloc] is thrown.
    Otherwise the block is live from now on, its contents indeterminate. *)
Definition operator_new (sz : Z) : M addr := λ s,
  match oracle s with
  | Some a :: o =>
      match heap s !! a with
      | None =>
          Ok a {| heap := <[a := {| bytes := sz; next := None; pool := None |}]> (heap s);
                  sentinel := sentinel s; exited := exited s;
                  oracle := o; trace := trace s ++ [New sz a] |}
      | Some _ =>
          bad_alloc {| heap := heap s; sentinel := sentinel s; exited := exited s;
                       oracle := o; trace := trace s ++ [NewFailed sz] |}
      end
  | None :: o =>
      bad_alloc {| heap := heap s; sentinel := sentinel s; exited := exited s;
                   oracle := o; trace := trace s ++ [NewFailed sz] |}
  | [] =>
      bad_alloc {| heap := heap s; sentinel := sentinel s; exited := exited s;
                   oracle := []; trace := trace s ++ [NewFailed sz] |}
  end.

(** [::operator delete(p)] and [::operator delete(p, sz)].  The block is
    released by its address, as the default sized deallocation function
    does; the size that the caller passed is recorded in the trace. *)
Definition operator_delete (p : ptr) (sz : option Z) : M unit := λ s,
  match p with
  | None => Ok tt s
  | Some a =>
      match heap s !! a with
      | Some _ =>
          Ok tt {| heap := delete a (heap s);
                   sentinel := sentinel s; exited := exited s;
                   oracle := oracle s; trace := trace s ++ [Delete a sz] |}
      | None => undefined
      end
  end.

(** ** class Pool *)

(** The value of [std::atomic<Node*> sentinel] of every pool that holds a
    non-null pointer is kept in a finite map; writing [nullptr] removes the
    entry. *)
Definition set_head (this : tid) (p : ptr) (m : gmap positive positive)
  : gmap positive positive :=
  match p with
  | Some a => <[this := a]> m
  | None => delete this m
  end.

Module Pool.

(** [sentinel.load(...)] on the pool of thread [this]. *)
Definition load (this : tid) : M ptr := λ s,
  if decide (this ∈ exited s) then undefined
  else Ok (sentinel s !! this) s.

(** [sentinel.store(p, ...)]. *)
Definition store (this : tid) (p : ptr) : M unit := λ s,
  if decide (this ∈ exited s) then undefined
  else Ok tt (set_sentinel (set_head this p (sentinel s)) s).

(** [sentinel.compare_exchange_weak(expected, desired, ...)]: the result
    is the success flag together with the value of [expected] after the
    call.  Spurious failures are left out: one leaves both the sentinel
    and [expected] as they are, and the loop around the call repeats it. *)
Definition compare_exchange_weak (this : tid) (expected desired : ptr)
  : M (bool * ptr) :=
  cur ← load this;
  if decide (cur = expected) then (store this desired;; mret (true, expected))
  else mret (false, cur).

(** The retry loop of [compare_exchange].  [expected] is a reference in
    the source: [assign] is the assignment through that reference, run
    after every failed attempt.  [desired] is a value: it is the same in
    every iteration. *)
Fixpoint compare_exchange_loop (fuel : nat) (this : tid)
    (expected desired : ptr) (assign : ptr → M unit) : M ptr :=
  match fuel with
  | O => λ _, timeout
  | S fuel =>
      r ← compare_exchange_weak this expected desired;
      if (r.1 : bool) then mret r.2
      else (assign r.2;; compare_exchange_loop fuel this r.2 desired assign)
  end.

(** [compare_exchange(expected, desired)] run by a thread that is not
    interrupted: the second attempt cannot fail. The result is the value
    of [expected] on return. *)
Definition compare_exchange (this : tid) (expected desired : ptr)
    (assign : ptr → M unit) : M ptr :=
  compare_exchange_loop 2 this expected desired assign.

Fixpoint clear_loop (fuel : nat) (this : tid) (p : ptr) : M unit :=
  match p with
  | None => mret tt
  | Some a =>
      match fuel with
      | O => λ _, timeout
      | S fuel =>
          nxt ← read_next a;
          store this nxt;;
          operator_delete (Some a) None;;
          clear_loop fuel this nxt
      end
  end.

(** [clear()]: every iteration releases a live block, so the number of
    live blocks bounds the number of iterations. *)
Definition clear (this : tid) : M unit := λ s,
  (p ← load this; clear_loop (S (size (heap s))) this p) s.

(** The thread-local pool of [this] stops existing. *)
Definition end_of_lifetime (this : tid) : M unit := λ s,
  Ok tt (set_exited ({[this]} ∪ exited s) s).

(** [~Pool()], run when the owning thread ends. *)
Definition destroy (this : tid) : M unit :=
  clear this;; end_of_lifetime this.

End Pool.

(** ** class PoolAllocator *)

Module PoolAllocator.

(** The facade has no data members. *)
Record t (T : ElemType) : Set := Build {}.

(** [allocate(n)] called by thread [self], whose thread-local [pool] is
    the pool [self]. *)
Definition allocate (T : ElemType) (self : tid) (n : Z) : M ptr :=
  if decide (n = 1)%Z then
    node ← Pool.load self;
    match node with
    | Some a =>
        nxt ← read_next a;
        Pool.compare_exchange self node nxt (λ _, mret tt)
    | None =>
        a ← operator_new (sizeof_Node T);
        write_pool a self;;
        mret (Some a)
    end
  else
    a ← operator_new (size_mul n (sizeof_Node T));
    mret (Some a).

(** [deallocate(p, n)] called by thread [self]. *)
Definition deallocate (T : ElemType) (self : tid) (p : ptr) (n : Z) : M unit :=
  match p with
  | None => mret tt
  | Some a =>
      if decide (n = 0)%Z then mret tt
      else if decide (n = 1)%Z then
        owner ← read_pool a;
        head ← Pool.load owner;
        write_next a head;;
        owner ← read_pool a;
        expected ← read_next a;
        Pool.compare_exchange owner expected (Some a) (write_next a);;
        mret tt
      else
        operator_delete (Some a) (Some (size_mul n (sizeof_value_type T)))
  end.

(** [clear()] called by thread [self]. *)
Definition clear (T : ElemType) (self : tid) : M unit :=
  Pool.clear self.

(** [operator==]. *)
Definition operator_eq {T1 T2 : ElemType} (lhs : t T1) (rhs : t T2) : bool :=
  true.

End PoolAllocator.

Import PoolAllocator.

(** ** Free lists *)

(** [is_list h p l]: following [next] from [p] in the heap [h] visits the
    cells [l], in this order, and ends at [nullptr]. *)
Inductive is_list (h : gmap positive Block) : ptr → list positive → Prop :=
| is_list_nil : is_list h None []
| is_list_cons a b nxt l :
    h !! a = Some b →
    next b = Some nxt →
    is_list h nxt l →
    is_list h (Some a) (a :: l).

(** The same walk as a function. *)
Fixpoint walk (fuel : nat) (h : gmap positive Block) (p : ptr)
  : option (list positive) :=
  match p with
  | None => Some []
  | Some a =>
      match fuel with
      | O => None
      | S fuel =>
          b ← h !! a;
          nxt ← next b;
          l ← walk fuel h nxt;
          Some (a :: l)
      end
  end.

(** The cells resident in the cache of thread [t]. *)
Definition free_list (s : State) (t : tid) : option (list positive) :=
  walk (S (size (heap s))) (heap s) (sentinel s !! t).

(** The back-reference of a cell. *)
Definition backref (h : gmap positive Block) (a : addr) : option tid :=
  b ← h !! a; pool b.

(** Every cell resident in the cache of [t] carries [t] as back-reference. *)
Definition pool_inv (s : State) (t : tid) : Prop :=
  ∃ l, is_list (heap s) (sentinel s !! t) l ∧
       Forall (λ a, backref (heap s) a = Some t) l.

(** Thread 1 has recycled the cells 10 and 11, in this order of the list;
    the system allocator will answer 12 next. *)
Definition two_free_cells : State :=
  {| heap := {[ 10%positive := {| bytes := 16; next := Some (Some 11%positive);
                                  pool := Some 1%positive |};
                11%positive := {| bytes := 16; next := Some None;
                                  pool := Some 1%positive |} ]};
     sentinel := {[ 1%positive := 10%positive ]};
     exited := ∅;
     oracle := [Some 12%positive];
     trace := [New 16 11; New 16 10] |}.

(** Thread 1 holds cell 12, next to the two cells in its cache. *)
Definition cell_handed_over : State :=
  {| heap := <[12%positive := {| bytes := 16; next := None;
                                 pool := Some 1%positive |}]>
               (heap two_free_cells);
     sentinel := sentinel two_free_cells; exited := ∅;
     oracle := []; trace := trace two_free_cells ++ [New 16 12] |}.

(** The pointer returned by a call, if it returned. *)
Definition returned {A} (r : res A) : option A :=
  match r with
  | Ok a _ => Some a
  | _ => None
  end.

(** A sized release matches the request that produced the block. *)
Fixpoint requested_size (tr : list SysCall) (a : addr) : option Z :=
  match tr with
  | [] => None
  | New sz a' :: tr =>
      match requested_size tr a with
      | Some sz' => Some sz'
      | None => if decide (a' = a) then Some sz else None
      end
  | _ :: tr => requested_size tr a
  end.

(** ** Clients

    The calls of a program that keeps to the allocator protocol: it passes
    to [deallocate] a pointer that [allocate] returned, with the same [n],
    once.  [owned] maps the blocks the program holds to the [n] they were
    allocated with. *)

Inductive Call :=
| Call_allocate (self : tid) (n : Z)
| Call_deallocate (self : tid) (p : addr) (n : Z)
| Call_clear (self : tid)
| Thread_exit (self : tid).

Definition exec (T : ElemType) (c : Call) (st : State * gmap positive Z)
  : option (State * gmap positive Z) :=
  let (s, owned) := st in
  match c with
  | Call_allocate self n =>
      if decide (self ∈ exited s) then None
      else match allocate T self n s with
           | Ok (Some a) s' => Some (s', <[a := n]> owned)
           | Ok None s' => Some (s', owned)
           | bad_alloc s' => Some (s', owned)
           | _ => None
           end
  | Call_deallocate self a n =>
      if decide (self ∈ exited s) then None
      else if decide (owned !! a = Some n) then
        match deallocate T self (Some a) n s with
        | Ok _ s' => Some (s', delete a owned)
        | _ => None
        end
      else None
  | Call_clear self =>
      if decide (self ∈ exited s) then None
      else match clear T self s with
           | Ok _ s' => Some (s', owned)
           | _ => None
           end
  | Thread_exit self =>
      if decide (self ∈ exited s) then None
      else match Pool.destroy self s with
           | Ok _ s' => Some (s', owned)
           | _ => None
           end
  end.

Inductive reachable (T : ElemType) : State → gmap positive Z → Prop :=
| reachable_initial o : reachable T (initial o) ∅
| reachable_exec c s owned s' owned' :
    reachable T s owned →
    exec T c (s, owned) = Some (s', owned') →
    reachable T s' owned'.

(** Every cache is a list that ends at [nullptr]; its cells carry the cache
    as back-reference and are not held by the program. *)
Definition wf (s : State) (owned : gmap positive Z) : Prop :=
  ∀ t, ∃ l, is_list (heap s) (sentinel s !! t) l ∧
            Forall (λ a, backref (heap s) a = Some t ∧ owned !! a = None) l.

(** ** Interleaved executions

    The single-element paths of [allocate] and [deallocate], cut at every
    access to shared memory.  A frame is the program point of a call in
    flight together with its local variables; a step runs the code up to
    and including the next atomic access. *)

Module Threads.

Inductive Frame :=
| Allocate_entry
    (* [allocate(1)] entered *)
| Allocate_loaded (node : ptr)
    (* after [node = pool.load()] *)
| Allocate_cas (node desired : ptr)
    (* inside [pool.compare_exchange(node, node->next)]: [node] is bound to
       [expected], [desired] holds the value [node->next] had at the call *)
| Allocate_return (node : ptr)
    (* [return reinterpret_cast<value_type*>(node)] *)
| Deallocate_entry (node : addr)
    (* [deallocate(p, 1)] entered, [node] is [p] *)
| Deallocate_cas (node : addr)
    (* inside [node->pool->compare_exchange(node->next, node)]:
       [expected] is the field [node->next] itself *)
| Deallocate_return.

Definition step (T : ElemType) (self : tid) (f : Frame) : M Frame :=
  match f with
  | Allocate_entry =>
      node ← Pool.load self;
      mret (Allocate_loaded node)
  | Allocate_loaded (Some a) =>
      nxt ← read_next a;
      mret (Allocate_cas (Some a) nxt)
  | Allocate_loaded None =>
      a ← operator_new (sizeof_Node T);
      write_pool a self;;
      mret (Allocate_return (Some a))
  | Allocate_cas node desired =>
      r ← Pool.compare_exchange_weak self node desired;
      mret (if (r.1 : bool) then Allocate_return r.2
            else Allocate_cas r.2 desired)
  | Deallocate_entry a =>
      owner ← read_pool a;
      head ← Pool.load owner;
      write_next a head;;
      mret (Deallocate_cas a)
  | Deallocate_cas a =>
      owner ← read_pool a;
      expected ← read_next a;
      r ← Pool.compare_exchange_weak owner expected (Some a);
      if (r.1 : bool) then mret Deallocate_return
      else (write_next a r.2;; mret (Deallocate_cas a))
  | Allocate_return _ | Deallocate_return => fail_undefined
  end.

(** A call run from frame [f] to its return by a thread that is not
    interrupted. *)
Fixpoint run_frame (fuel : nat) (T : ElemType) (self : tid) (f : Frame)
  : M ptr :=
  match f with
  | Allocate_return p => mret p
  | Deallocate_return => mret None
  | _ =>
      match fuel with
      | O => λ _, timeout
      | S fuel => f' ← step T self f; run_frame fuel T self f'
      end
  end.

(** The shared state, the calls in flight, the cells that clients hold
    (returned by [allocate(1)] and not yet passed to [deallocate]) and the
    pointers returned so far, latest first. *)
Record Config := {
  shared : State;
  frames : gmap positive Frame;
  held : gset positive;
  results : list (positive * ptr)
}.

Definition start (o : list ptr) : Config :=
  {| shared := initial o; frames := ∅; held := ∅; results := [] |}.

Inductive Event :=
| Invoke_allocate (t : tid)
| Invoke_deallocate (t : tid) (p : addr)
| Step (t : tid).

Definition fire (T : ElemType) (e : Event) (c : Config) : option Config :=
  match e with
  | Invoke_allocate t =>
      match frames c !! t with
      | Some _ => None
      | None =>
          Some {| shared := shared c;
                  frames := <[t := Allocate_entry]> (frames c);
                  held := held c; results := results c |}
      end
  | Invoke_deallocate t a =>
      match frames c !! t with
      | Some _ => None
      | None =>
          if decide (a ∈ held c) then
            Some {| shared := shared c;
                    frames := <[t := Deallocate_entry a]> (frames c);
                    held := held c ∖ {[a]}; results := results c |}
          else None
      end
  | Step t =>
      f ← frames c !! t;
      match step T t f (shared c) with
      | Ok (Allocate_return p) s =>
          Some {| shared := s; frames := delete t (frames c);
                  held := match p with
                          | Some a => {[a]} ∪ held c
                          | None => held c
                          end;
                  results := (t, p) :: results c |}
      | Ok Deallocate_return s =>
          Some {| shared := s; frames := delete t (frames c);
                  held := held c; results := results c |}
      | Ok f' s =>
          Some {| shared := s; frames := <[t := f']> (frames c);
                  held := held c; results := results c |}
      | _ => None
      end
  end.

Fixpoint run (T : ElemType) (es : list Event) (c : Config) : option Config :=
  match es with
  | [] => Some c
  | e :: es => c' ← fire T e c; run T es c'
  end.

(** No call is in flight. *)
Definition quiescent (c : Config) : Prop := frames c = ∅.

(** A cell is lost when it is live, no client holds it and it is in no
    cache. *)
Definition lost (c : Config) (a : addr) : Prop :=
  is_Some (backref (heap (shared c)) a) ∧
  (a ∉ held c) ∧
  (∀ t l, free_list (shared c) t = Some l → a ∉ l).

(** Threads 1 and 2; the system allocator answers 10, 11 and 12.  Thread 1
    allocates the cells 10, 11 and 12, frees 11 and then 10, and starts
    another [allocate(1)]: it loads the head 10 and reads its link 11.
    Before its compare-and-swap, thread 2 frees cell 12, which thread 1
    had handed to it.  Then thread 1 runs its loop to the end. *)
Definition race_schedule : list Event :=
  [ Invoke_allocate 1; Step 1; Step 1;
    Invoke_allocate 1; Step 1; Step 1;
    Invoke_allocate 1; Step 1; Step 1;
    Invoke_deallocate 1 11; Step 1; Step 1;
    Invoke_deallocate 1 10; Step 1; Step 1;
    Invoke_allocate 1; Step 1; Step 1;
    Invoke_deallocate 2 12; Step 2; Step 2;
    Step 1; Step 1 ]%positive.

Definition race_final : Config :=
  {| shared :=
       {| heap := {[ 10%positive := {| bytes := 16; next := Some (Some 11%positive);
                                       pool := Some 1%positive |};
                     11%positive := {| bytes := 16; next := Some None;
                                       pool := Some 1%positive |};
                     12%positive := {| bytes := 16; next := Some (Some 10%positive);
                                       pool := Some 1%positive |} ]};
          sentinel := {[ 1%positive := 11%positive ]};
          exited := ∅;
          oracle := [];
          trace := [New 16 10; New 16 11; New 16 12] |};
     frames := ∅;
     held := {[ 12%positive ]};
     results := [ (1, Some 12); (1, Some 12); (1, Some 11); (1, Some 10) ]%positive |}.

End Threads.


(** ** Accounting for cells

    A cell is accounted for when the program holds it or it is in the
    cache named by its back-reference. *)
Definition accounted (s : State) (owned : gmap positive Z) : Prop :=
  ∀ a t, backref (heap s) a = Some t →
         owned !! a = Some 1%Z ∨ ∃ l, free_list s t = Some l ∧ a ∈ l.

(** The blocks the program holds are live, and those of the bulk path are
    no cells. *)
Definition owned_ok (s : State) (owned : gmap positive Z) : Prop :=
  ∀ a n, owned !! a = Some n →
         is_Some (heap s !! a) ∧ (n ≠ 1%Z → backref (heap s) a = None).

(** The invariant of which [accounted] is a part. *)
Definition inv2 (s : State) (ow : gmap positive Z) : Prop :=
  wf s ow ∧
  (∀ a t, backref (heap s) a = Some t →
          ow !! a = Some 1%Z ∨
          ∃ l, is_list (heap s) (sentinel s !! t) l ∧ a ∈ l) ∧
  owned_ok s ow.

(** The calls the protocol permits in a state: the calling thread is
    running; [deallocate] gets a block the program holds, with the count
    it was allocated with, and a cell goes back only while the cache of
    its owner exists. *)
Definition permitted (s : State) (owned : gmap positive Z) (c : Call) : Prop :=
  match c with
  | Call_allocate self _ => self ∉ exited s
  | Call_deallocate self a n =>
      (self ∉ exited s) ∧ owned !! a = Some n ∧
      (n = 1%Z → ∀ t, backref (heap s) a = Some t → t ∉ exited s)
  | Call_clear self => self ∉ exited s
  | Thread_exit self => self ∉ exited s
  end.

(** The cells the program holds have a back-reference. *)
Definition owned_cells_ok (s : State) (owned : gmap positive Z) : Prop :=
  ∀ a, owned !! a = Some 1%Z → is_Some (backref (heap s) a).

(** Two allocations by thread 1, the second cell freed by thread 2. *)
Definition three_calls : list Call :=
  [Call_allocate 1 1; Call_allocate 1 1; Call_deallocate 2 11 1].

Fixpoint exec_all (T : ElemType) (cs : list Call) (st : State * gmap positive Z)
  : option (State * gmap positive Z) :=
  match cs with
  | [] => Some st
  | c :: cs => st' ← exec T c st; exec_all T cs st'
  end.



(** ** Sized releases

    [::operator delete(p, size)] requires [size] to be the size the block
    was requested with.  [operator_delete] records what the caller
    announces; the requirement is stated on the trace. *)

(** Every sized release in the trace announces the size of the latest
    request that produced the block. *)
Definition sized_releases_match (tr : list SysCall) : Prop :=
  ∀ tr1 a sz tr2,
    tr = tr1 ++ Delete a (Some sz) :: tr2 → requested_size tr1 a = Some sz.

(** A call whose release on the bulk path, if it makes one, announces the
    size that [allocate(n)] requested. *)
Definition sized_ok (T : ElemType) (c : Call) : Prop :=
  match c with
  | Call_deallocate _ _ n =>
      n = 1%Z ∨ size_mul n (sizeof_value_type T) = size_mul n (sizeof_Node T)
  | _ => True
  end.

(** The states that a program reaches by calls that keep to the protocol
    and are [sized_ok]. *)
Inductive reachable_sized (T : ElemType) : State → gmap positive Z → Prop :=
| reachable_sized_initial o : reachable_sized T (initial o) ∅
| reachable_sized_exec c s owned s' owned' :
    reachable_sized T s owned →
    sized_ok T c →
    exec T c (s, owned) = Some (s', owned') →
    reachable_sized T s' owned'.

(** The blocks of the bulk path that the program holds were requested
    with [n * sizeof(Node)] bytes. *)
Definition bulk_sizes_recorded (T : ElemType) (s : State)
    (owned : gmap positive Z) : Prop :=
  ∀ a n, owned !! a = Some n → n ≠ 1%Z →
         requested_size (trace s) a = Some (size_mul n (sizeof_Node T)).

Definition sized_inv (T : ElemType) (s : State) (owned : gmap positive Z) : Prop :=
  sized_releases_match (trace s) ∧ bulk_sizes_recorded T s owned.

(** One request on the bulk path. *)
Definition bulk_call : list Call := [Call_allocate 1 2].
(** ** The earlier variant of the allocator

    The variant of [PoolAllocator.h] that has one process-wide
    [SharedPool] and a thread-local [LocalPool] instead of per-thread
    pools with back-references.  Its [Node] is the union of [next] and
    [value]: the field [pool] of a block stays indeterminate.  The heap
    and the system allocator are those of [State]; the sentinels of
    [State] are not used.

    [compare_exchange_weak] may fail although the value of the atomic
    compares equal to [expected].  Which attempts do is given by the list
    [spurious] of a [World]: every attempt takes one entry from its front,
    [true] for an attempt that fails in this way; when the list is used up
    no attempt does. *)

Module Earlier.

Record World := {
  mem : State;
  shared_head : ptr;                       (* [shared_pool.head] *)
  local_head : gmap positive positive;     (* [local_pool.head] of each thread *)
  local_gone : gset positive;              (* threads whose [local_pool] is destroyed *)
  spurious : list bool                     (* attempts that fail spuriously *)
}.

Definition start (o : list ptr) : World :=
  {| mem := initial o; shared_head := None; local_head := ∅; local_gone := ∅;
     spurious := [] |}.

Definition set_spurious (sp : list bool) (w : World) : World :=
  {| mem := mem w; shared_head := shared_head w; local_head := local_head w;
     local_gone := local_gone w; spurious := sp |}.

(** The next attempt of [compare_exchange_weak] fails spuriously. *)
Definition fails (sp : list bool) : bool :=
  match sp with
  | true :: _ => true
  | _ => false
  end.

(** What is left of [spurious] after a retry loop whose comparison
    succeeds at the first attempt that does not fail spuriously. *)
Fixpoint after_retry (sp : list bool) : list bool :=
  match sp with
  | true :: sp => after_retry sp
  | _ :: sp => sp
  | [] => []
  end.

Inductive outcome (A : Type) :=
| Returns (a : A) (w : World)
| Throws (w : World)
| Undefined
| Out_of_fuel.
Arguments Returns {A} a w.
Arguments Throws {A} w.
Arguments Undefined {A}.
Arguments Out_of_fuel {A}.

Definition E (A : Type) : Type := World → outcome A.

#[global] Instance E_ret : MRet E := λ A a w, Returns a w.

#[global] Instance E_bind : MBind E := λ A B f m w,
  match m w with
  | Returns a w' => f a w'
  | Throws w' => Throws w'
  | Undefined => Undefined
  | Out_of_fuel => Out_of_fuel
  end.

(** An access to the heap or to the system allocator. *)
Definition lift {A} (m : M A) : E A := λ w,
  match m (mem w) with
  | Ok a s =>
      Returns a {| mem := s; shared_head := shared_head w;
                   local_head := local_head w; local_gone := local_gone w;
                   spurious := spurious w |}
  | bad_alloc s =>
      Throws {| mem := s; shared_head := shared_head w;
                local_head := local_head w; local_gone := local_gone w;
                spurious := spurious w |}
  | undefined => Undefined
  | timeout => Out_of_fuel
  end.

(** *** class SharedPool *)

Module SharedPool.

(** [head.load()]. *)
Definition load : E ptr := λ w, Returns (shared_head w) w.

(** [try_compare_exchange(expected, desired)], that is
    [head.compare_exchange_weak(expected, desired)], one attempt: the
    success flag and the value of [expected] after the call.  A failed
    attempt, spurious or not, loads the head into [expected] and leaves
    the head as it is. *)
Definition try_compare_exchange (expected desired : ptr) : E (bool * ptr) := λ w,
  if decide (shared_head w = expected) then
    if fails (spurious w) then
      Returns (false, shared_head w) (set_spurious (tail (spurious w)) w)
    else
      Returns (true, expected)
        {| mem := mem w; shared_head := desired;
           local_head := local_head w; local_gone := local_gone w;
           spurious := tail (spurious w) |}
  else Returns (false, shared_head w) (set_spurious (tail (spurious w)) w).

Fixpoint compare_exchange_loop (fuel : nat) (expected desired : ptr)
    (assign : ptr → E unit) : E ptr :=
  match fuel with
  | O => λ _, Out_of_fuel
  | S fuel =>
      r ← try_compare_exchange expected desired;
      if (r.1 : bool) then mret r.2
      else (assign r.2;; compare_exchange_loop fuel r.2 desired assign)
  end.

(** [compare_exchange(expected, desired)] run without interruption;
    [assign] writes through the reference [expected].  Without
    interruption the loop ends at the latest one attempt after the last
    spurious failure. *)
Definition compare_exchange (expected desired : ptr) (assign : ptr → E unit)
  : E ptr := λ w,
  compare_exchange_loop (S (S (length (spurious w)))) expected desired assign w.

(** The loop of [~SharedPool()]; [p] is passed to
    [compare_exchange_weak] by reference, the result of the call is
    ignored, and what is deleted is [p] after that call. *)
Fixpoint destroy_loop (fuel : nat) (p : ptr) : E unit :=
  match p with
  | None => mret tt
  | Some a =>
      match fuel with
      | O => λ _, Out_of_fuel
      | S fuel =>
          nxt ← lift (read_next a);
          r ← try_compare_exchange p nxt;
          lift (operator_delete r.2 None);;
          p' ← load;
          destroy_loop fuel p'
      end
  end.

(** [~SharedPool()]. *)
Definition destroy : E unit := λ w,
  (p ← load; destroy_loop (S (size (heap (mem w)))) p) w.

End SharedPool.

(** *** class LocalPool *)

Module LocalPool.

(** [operator Node*&()] and [operator const Node*()], read. *)
Definition get (self : tid) : E ptr := λ w,
  if decide (self ∈ local_gone w) then Undefined
  else Returns (local_head w !! self) w.

(** [operator=(Node* p)], and a write through [operator Node*&()]. *)
Definition assign (self : tid) (p : ptr) : E unit := λ w,
  if decide (self ∈ local_gone w) then Undefined
  else Returns tt {| mem := mem w; shared_head := shared_head w;
                     local_head := set_head self p (local_head w);
                     local_gone := local_gone w; spurious := spurious w |}.

(** The loop of [~LocalPool()]: the cells of the local list are pushed
    onto the shared pool one by one. *)
Fixpoint destroy_loop (fuel : nat) (self : tid) : E unit :=
  match fuel with
  | O => λ w, match local_head w !! self with
              | None => Returns tt w
              | Some _ => Out_of_fuel
              end
  | S fuel =>
      head ← get self;
      match head with
      | None => mret tt
      | Some p =>
          nxt ← lift (read_next p);
          assign self nxt;;
          h ← SharedPool.load;
          lift (write_next p h);;
          expected ← lift (read_next p);
          SharedPool.compare_exchange expected (Some p)
            (λ v, lift (write_next p v));;
          destroy_loop fuel self
      end
  end.

(** The thread-local pool of [self] stops existing. *)
Definition end_of_lifetime (self : tid) : E unit := λ w,
  Returns tt {| mem := mem w; shared_head := shared_head w;
                local_head := local_head w;
                local_gone := {[self]} ∪ local_gone w;
                spurious := spurious w |}.

(** [~LocalPool()], run when the thread ends: one attempt to install the
    local list as the shared one, and the loop if that attempt fails. *)
Definition destroy (self : tid) : E unit := λ w,
  (head ← get self;
   r ← SharedPool.try_compare_exchange None head;
   if (r.1 : bool) then end_of_lifetime self
   else (destroy_loop (S (size (heap (mem w)))) self;; end_of_lifetime self)) w.

End LocalPool.

(** *** class PoolAllocator *)

(** [alloc(n)]. *)
Definition alloc (T : ElemType) (n : Z) : E ptr :=
  a ← lift (operator_new (size_mul n (sizeof_Node T)));
  mret (Some a).

(** [add_to_shared_pool(p)]; a null [p] is dereferenced. *)
Definition add_to_shared_pool (p : ptr) : E unit :=
  match p with
  | None => λ _, Undefined
  | Some node =>
      h ← SharedPool.load;
      lift (write_next node h);;
      expected ← lift (read_next node);
      SharedPool.compare_exchange expected (Some node)
        (λ v, lift (write_next node v));;
      mret tt
  end.

(** [move_from_shared_to_local_pool()]. *)
Definition move_from_shared_to_local_pool (self : tid) : E unit :=
  l ← LocalPool.get self;
  match l with
  | None =>
      h ← SharedPool.load;
      LocalPool.assign self h;;
      expected ← LocalPool.get self;
      SharedPool.compare_exchange expected None (LocalPool.assign self);;
      mret tt
  | Some _ => mret tt
  end.

(** [reuse_from_local_pool()]. *)
Definition reuse_from_local_pool (self : tid) : E ptr :=
  p ← LocalPool.get self;
  match p with
  | Some a =>
      nxt ← lift (read_next a);
      LocalPool.assign self nxt;;
      mret p
  | None => mret p
  end.

(** [move_from_local_to_shared_pool()]: one attempt, not repeated. *)
Definition move_from_local_to_shared_pool (self : tid) : E unit :=
  l ← LocalPool.get self;
  r ← SharedPool.try_compare_exchange None l;
  if (r.1 : bool) then LocalPool.assign self None else mret tt.

(** [dealloc(p, n)]. *)
Definition dealloc (T : ElemType) (p : ptr) (n : Z) : E unit :=
  lift (operator_delete p (Some (size_mul n (sizeof_Node T)))).

(** [allocate(n)] called by thread [self]. *)
Definition allocate (T : ElemType) (self : tid) (n : Z) : E ptr :=
  if decide (n = 1)%Z then
    move_from_shared_to_local_pool self;;
    p ← reuse_from_local_pool self;
    move_from_local_to_shared_pool self;;
    match p with
    | Some _ => mret p
    | None => alloc T n
    end
  else alloc T n.

(** [deallocate(p, n)] called by thread [self]. *)
Definition deallocate (T : ElemType) (self : tid) (p : ptr) (n : Z) : E unit :=
  if decide (n = 1)%Z then add_to_shared_pool p
  else dealloc T p n.

(** [int] on an LP64 platform: [Node] is a union of a pointer and an
    [int]. *)
Definition int_LP64 : ElemType :=
  {| sizeof_value_type := 4%Z; sizeof_Node := 8%Z |}.

(** The shared pool holds the cells 10 and 11; thread 2 has kept cell 12
    in its local pool. *)
Definition pools : World :=
  {| mem := {| heap := {[ 10%positive := {| bytes := 8; next := Some (Some 11%positive);
                                            pool := None |};
                          11%positive := {| bytes := 8; next := Some None;
                                            pool := None |};
                          12%positive := {| bytes := 8; next := Some None;
                                            pool := None |} ]};
               sentinel := ∅; exited := ∅;
               oracle := [Some 13%positive];
               trace := [New 8 10; New 8 11; New 8 12] |};
     shared_head := Some 10%positive;
     local_head := {[ 2%positive := 12%positive ]};
     local_gone := ∅;
     spurious := [] |}.

(** The shared pool is empty; thread 2 has kept the cells 10 and 11 in its
    local pool. *)
Definition local_only : World :=
  {| mem := {| heap := {[ 10%positive := {| bytes := 8; next := Some (Some 11%positive);
                                            pool := None |};
                          11%positive := {| bytes := 8; next := Some None;
                                            pool := None |} ]};
               sentinel := ∅; exited := ∅;
               oracle := [];
               trace := [New 8 10; New 8 11] |};
     shared_head := None;
     local_head := {[ 2%positive := 10%positive ]};
     local_gone := ∅;
     spurious := [] |}.

End Earlier.
(** * Properties *)

Import Threads.

(** Unfolding the calls and the monad, and evaluating under the facts in
    the context. *)
Ltac run_monad :=
  unfold read_next, write_next, read_pool, write_pool, get_block, put_block,
    fail_undefined, mbind, M_bind, mret, M_ret; simpl.

Ltac unfold_calls :=
  unfold run_frame, step, allocate, deallocate, Pool.compare_exchange,
    Pool.compare_exchange_loop, Pool.compare_exchange_weak, Pool.load,
    Pool.store, operator_new, read_next, write_next, read_pool, write_pool,
    get_block, put_block, fail_undefined, mbind, M_bind, mret, M_ret.

Ltac crunch :=
  repeat (progress (simpl;
                    try rewrite decide_True by done;
                    try rewrite decide_False by done;
                    try match goal with
                        | H : _ !! _ = _ |- _ => rewrite H
                        | H : next _ = _ |- _ => rewrite H
                        | H : pool _ = _ |- _ => rewrite H
                        | H : oracle _ = _ |- _ => rewrite H
                        end;
                    try rewrite lookup_insert_eq)).


Section monad_laws.

Context {A B : Type}.

Lemma bind_Ok (m : M A) (f : A → M B) s a s' :
  m s = Ok a s' → (m ≫= f) s = f a s'.
Proof. intros H. unfold mbind, M_bind. by rewrite H. Qed.

Lemma bind_bad_alloc (m : M A) (f : A → M B) s s' :
  m s = bad_alloc s' → (m ≫= f) s = bad_alloc s'.
Proof. intros H. unfold mbind, M_bind. by rewrite H. Qed.

Lemma bind_inv_Ok (m : M A) (f : A → M B) s b s'' :
  (m ≫= f) s = Ok b s'' → ∃ a s', m s = Ok a s' ∧ f a s' = Ok b s''.
Proof.
  unfold mbind, M_bind. destruct (m s) as [a s'| | |]; try discriminate.
  intros H. by exists a, s'.
Qed.

End monad_laws.

Lemma lookup_set_head_eq this p m : set_head this p m !! this = p.
Proof.
  destruct p; simpl; [apply lookup_insert_eq | apply lookup_delete_eq].
Qed.

Lemma lookup_set_head_ne this t p m :
  this ≠ t → set_head this p m !! t = m !! t.
Proof.
  intros Hne. destruct p; simpl;
    [by apply lookup_insert_ne | by apply lookup_delete_ne].
Qed.

Lemma set_head_set_head this p q m :
  set_head this p (set_head this q m) = set_head this p m.
Proof.
  destruct p, q; simpl.
  - apply insert_insert_eq.
  - apply insert_delete_eq.
  - apply delete_insert_eq.
  - apply delete_id, lookup_delete_eq.
Qed.

(** ** The primitives, run by a live thread *)

Lemma load_eq this s :
  this ∉ exited s → Pool.load this s = Ok (sentinel s !! this) s.
Proof. intros H. unfold Pool.load. by rewrite decide_False. Qed.

Lemma store_eq this p s :
  this ∉ exited s →
  Pool.store this p s = Ok tt (set_sentinel (set_head this p (sentinel s)) s).
Proof. intros H. unfold Pool.store. by rewrite decide_False. Qed.

(** When [expected] holds the current value of the sentinel, the first
    attempt of [compare_exchange] succeeds. *)
Lemma compare_exchange_eq this expected desired assign s :
  this ∉ exited s →
  sentinel s !! this = expected →
  Pool.compare_exchange this expected desired assign s =
  Ok expected (set_sentinel (set_head this desired (sentinel s)) s).
Proof.
  intros Hlive Hcur.
  unfold Pool.compare_exchange, Pool.compare_exchange_loop,
    Pool.compare_exchange_weak.
  rewrite (bind_Ok _ _ s (true, expected)
             (set_sentinel (set_head this desired (sentinel s)) s)); [done|].
  rewrite (bind_Ok _ _ _ _ _ (load_eq _ _ Hlive)).
  rewrite decide_True by done.
  by rewrite (bind_Ok _ _ _ _ _ (store_eq _ _ _ Hlive)).
Qed.

(** Without interference [compare_exchange] returns after at most two
    attempts, whatever [expected] holds on entry: the loop never runs out
    of fuel. *)
Lemma compare_exchange_total this expected desired s :
  this ∉ exited s →
  Pool.compare_exchange this expected desired (λ _, mret tt) s =
  Ok (sentinel s !! this) (set_sentinel (set_head this desired (sentinel s)) s).
Proof.
  intros Hlive.
  destruct (decide (sentinel s !! this = expected)) as [Heq|Hne].
  { rewrite compare_exchange_eq by done. by rewrite Heq. }
  unfold Pool.compare_exchange, Pool.compare_exchange_loop,
    Pool.compare_exchange_weak, Pool.load, Pool.store, mbind, M_bind, mret, M_ret.
  rewrite decide_False by done. rewrite decide_False by done. simpl.
  rewrite decide_False by done. by rewrite decide_True, decide_False.
Qed.

(** ** The facade, case by case *)

Lemma allocate_hit T self s a b nxt :
  self ∉ exited s →
  sentinel s !! self = Some a →
  heap s !! a = Some b →
  next b = Some nxt →
  allocate T self 1 s =
  Ok (Some a) (set_sentinel (set_head self nxt (sentinel s)) s).
Proof.
  intros Hlive Hhd Hb Hnx. unfold allocate. rewrite decide_True by done.
  rewrite (bind_Ok _ _ _ _ _ (load_eq _ _ Hlive)), Hhd.
  rewrite (bind_Ok _ _ s nxt s); [|run_monad; by rewrite Hb, Hnx].
  by rewrite compare_exchange_eq.
Qed.

Lemma allocate_miss T self s a o :
  self ∉ exited s →
  sentinel s !! self = None →
  oracle s = Some a :: o →
  heap s !! a = None →
  allocate T self 1 s =
  Ok (Some a)
     {| heap := <[a := {| bytes := sizeof_Node T; next := None;
                          pool := Some self |}]> (heap s);
        sentinel := sentinel s; exited := exited s;
        oracle := o; trace := trace s ++ [New (sizeof_Node T) a] |}.
Proof.
  intros Hlive Hhd Ho Hfresh. unfold allocate. rewrite decide_True by done.
  rewrite (bind_Ok _ _ _ _ _ (load_eq _ _ Hlive)), Hhd.
  unfold operator_new. run_monad. rewrite Ho, Hfresh. simpl.
  rewrite lookup_insert_eq. simpl. unfold set_heap. simpl.
  by rewrite insert_insert_eq.
Qed.

Lemma allocate_miss_bad_alloc T self s :
  self ∉ exited s →
  sentinel s !! self = None →
  (∀ a o, oracle s = Some a :: o → is_Some (heap s !! a)) →
  allocate T self 1 s =
  bad_alloc {| heap := heap s; sentinel := sentinel s; exited := exited s;
               oracle := tail (oracle s);
               trace := trace s ++ [NewFailed (sizeof_Node T)] |}.
Proof.
  intros Hlive Hhd Ho. unfold allocate. rewrite decide_True by done.
  rewrite (bind_Ok _ _ _ _ _ (load_eq _ _ Hlive)), Hhd.
  unfold operator_new. run_monad.
  destruct (oracle s) as [|[a|] o] eqn:E; simpl; try done.
  destruct (Ho a o eq_refl) as [b ->]. done.
Qed.

Lemma deallocate_one T self s a b owner :
  heap s !! a = Some b →
  pool b = Some owner →
  owner ∉ exited s →
  deallocate T self (Some a) 1 s =
  Ok tt
     {| heap := <[a := {| bytes := bytes b; next := Some (sentinel s !! owner);
                          pool := Some owner |}]> (heap s);
        sentinel := <[owner := a]> (sentinel s); exited := exited s;
        oracle := oracle s; trace := trace s |}.
Proof.
  intros Hb Hown Hlive. unfold deallocate.
  rewrite decide_False by done. rewrite decide_True by done.
  set (s1 := set_heap (<[a := {| bytes := bytes b;
                                  next := Some (sentinel s !! owner);
                                  pool := Some owner |}]> (heap s)) s).
  rewrite (bind_Ok _ _ s owner s); [|run_monad; by rewrite Hb, Hown].
  rewrite (bind_Ok _ _ _ _ _ (load_eq _ _ Hlive)).
  rewrite (bind_Ok _ _ s tt s1); [|run_monad; by rewrite Hb, Hown].
  rewrite (bind_Ok _ _ s1 owner s1); [|run_monad; unfold s1; simpl; by rewrite lookup_insert_eq].
  rewrite (bind_Ok _ _ s1 (sentinel s !! owner) s1); [|run_monad; unfold s1; simpl; by rewrite lookup_insert_eq].
  rewrite (bind_Ok _ _ _ _ _ (compare_exchange_eq owner (sentinel s !! owner)
    (Some a) (write_next a) s1 Hlive eq_refl)).
  done.
Qed.

(** ** Free lists *)

Lemma is_list_det h p l1 l2 : is_list h p l1 → is_list h p l2 → l1 = l2.
Proof.
  intros H1. revert l2.
  induction H1 as [|a b nxt l Hb Hnx _ IH]; intros l2 H2; inversion H2; subst.
  - done.
  - f_equal. apply IH. congruence.
Qed.

Lemma is_list_live h p l a : is_list h p l → a ∈ l → is_Some (h !! a).
Proof.
  induction 1 as [|a' b nxt l Hb Hnx _ IH]; intros Hin.
  - by apply elem_of_nil in Hin.
  - apply elem_of_cons in Hin as [->|Hin]; eauto.
Qed.

Lemma is_list_suffix h p l a :
  is_list h p l → a ∈ l → ∃ l1 l2, l = l1 ++ a :: l2 ∧ is_list h (Some a) (a :: l2).
Proof.
  induction 1 as [|a' b nxt l Hb Hnx Hl IH]; intros Hin.
  - by apply elem_of_nil in Hin.
  - apply elem_of_cons in Hin as [->|Hin].
    + exists [], l. split; [done|]. by econstructor.
    + destruct (IH Hin) as (l1 & l2 & -> & H2).
      by exists (a' :: l1), l2.
Qed.

(** A list that ends at [nullptr] visits no cell twice. *)
Lemma is_list_head_fresh h a l : is_list h (Some a) (a :: l) → a ∉ l.
Proof.
  intros H Hin. inversion H as [|? b nxt ? Hb Hnx Hl]; subst.
  destruct (is_list_suffix _ _ _ _ Hl Hin) as (l1 & l2 & -> & H2).
  pose proof (is_list_det _ _ _ _ H H2) as Heq.
  apply (f_equal length) in Heq. simpl in Heq.
  rewrite length_app in Heq. simpl in Heq. lia.
Qed.

Lemma is_list_NoDup h p l : is_list h p l → NoDup l.
Proof.
  induction 1 as [|a b nxt l Hb Hnx Hl IH]; [constructor|].
  apply NoDup_cons. split; [|done].
  eapply is_list_head_fresh. by econstructor.
Qed.

Lemma is_list_delete h p l a : is_list h p l → a ∉ l → is_list (delete a h) p l.
Proof.
  induction 1 as [|a' b nxt l Hb Hnx _ IH]; intros Hnin; [constructor|].
  apply not_elem_of_cons in Hnin as [Hne Hnin].
  econstructor; [|done|by apply IH]. by rewrite lookup_delete_ne.
Qed.

Lemma is_list_insert h p l a b : is_list h p l → a ∉ l → is_list (<[a := b]> h) p l.
Proof.
  induction 1 as [|a' b' nxt l Hb Hnx _ IH]; intros Hnin; [constructor|].
  apply not_elem_of_cons in Hnin as [Hne Hnin].
  econstructor; [|done|by apply IH]. by rewrite lookup_insert_ne.
Qed.

(** The cells of a list are live and distinct: there are no more of them
    than live blocks. *)
Lemma is_list_length h p l : is_list h p l → length l ≤ size h.
Proof.
  intros H. revert h H. revert p.
  induction l as [|a l IH]; intros p h H; simpl; [lia|].
  pose proof (is_list_head_fresh h a l) as Hfresh.
  inversion H as [|? b nxt ? Hb Hnx Hl]; subst.
  specialize (Hfresh H).
  pose proof (IH _ _ (is_list_delete _ _ _ a Hl Hfresh)) as Hlen.
  rewrite map_size_delete, Hb in Hlen.
  assert (size h ≠ 0); [|lia].
  intros Hz. apply map_size_empty_inv in Hz. subst. by rewrite lookup_empty in Hb.
Qed.

Lemma walk_sound fuel h p l : walk fuel h p = Some l → is_list h p l.
Proof.
  revert p l. induction fuel as [|fuel IH]; intros [a|] l; simpl; intros H;
    try discriminate; try (injection H as <-; constructor).
  destruct (h !! a) as [b|] eqn:Hb; simpl in H; [|done].
  destruct (next b) as [nxt|] eqn:Hnx; simpl in H; [|done].
  destruct (walk fuel h nxt) as [l'|] eqn:Hw; simpl in H; [|done].
  injection H as <-. econstructor; eauto.
Qed.

Lemma walk_complete fuel h p l :
  is_list h p l → length l ≤ fuel → walk fuel h p = Some l.
Proof.
  intros H. revert fuel.
  induction H as [|a b nxt l Hb Hnx _ IH]; intros fuel Hlen.
  - by destruct fuel.
  - destruct fuel as [|fuel]; simpl in *; [lia|].
    rewrite Hb. simpl. rewrite Hnx. simpl. rewrite IH by lia. done.
Qed.

(** [free_list] computes exactly the list that [is_list] describes. *)
Lemma free_list_is_list s t l :
  free_list s t = Some l ↔ is_list (heap s) (sentinel s !! t) l.
Proof.
  unfold free_list. split.
  - apply walk_sound.
  - intros H. apply walk_complete; [done|].
    pose proof (is_list_length _ _ _ H). lia.
Qed.

(** ** [Pool::clear] *)

Lemma lookup_foldl_delete (l : list positive) (h : gmap positive Block) a :
  foldl (λ h a, delete a h) h l !! a = if decide (a ∈ l) then None else h !! a.
Proof.
  revert h. induction l as [|a' l IH]; intros h; simpl.
  - destruct (decide (a ∈ [])) as [Hin|_]; [by apply elem_of_nil in Hin|done].
  - rewrite IH.
    destruct (decide (a ∈ l)) as [Hin|Hnin];
      destruct (decide (a ∈ a' :: l)) as [Hin'|Hnin']; try done.
    + exfalso. apply Hnin'. by right.
    + apply elem_of_cons in Hin' as [->|?]; [apply lookup_delete_eq|done].
    + apply not_elem_of_cons in Hnin' as [Hne _]. by apply lookup_delete_ne.
Qed.

(** The loop of [clear] started at [p], where [p] heads the list [l]:
    every cell of [l] is released, in list order, and nothing else. *)
Lemma clear_loop_spec this l : ∀ fuel s p,
  this ∉ exited s →
  is_list (heap s) p l →
  length l ≤ fuel →
  Pool.clear_loop fuel this p s =
  Ok tt {| heap := foldl (λ h a, delete a h) (heap s) l;
           sentinel := match l with
                       | [] => sentinel s
                       | _ => delete this (sentinel s)
                       end;
           exited := exited s; oracle := oracle s;
           trace := trace s ++ map (λ a, Delete a None) l |}.
Proof.
  induction l as [|a l IH]; intros fuel s p Hlive Hl Hfuel.
  - inversion Hl; subst. destruct s; simpl.
    rewrite app_nil_r. by destruct fuel.
  - inversion Hl as [|? b nxt ? Hb Hnx Hl']; subst.
    pose proof (is_list_head_fresh _ _ _ Hl) as Hfresh.
    destruct fuel as [|fuel]; simpl in Hfuel; [lia|]. simpl.
    rewrite (bind_Ok _ _ s nxt s);
      [|unfold read_next, get_block, mbind, M_bind, mret, M_ret; by rewrite Hb, Hnx].
    rewrite (bind_Ok _ _ _ _ _ (store_eq _ _ _ Hlive)).
    set (s1 := set_sentinel (set_head this nxt (sentinel s)) s).
    rewrite (bind_Ok _ _ s1 tt
               {| heap := delete a (heap s); sentinel := sentinel s1;
                  exited := exited s; oracle := oracle s;
                  trace := trace s ++ [Delete a None] |});
      [|unfold operator_delete; simpl; by rewrite Hb].
    rewrite IH; simpl; [|done|by apply is_list_delete|lia].
    f_equal. f_equal.
    + destruct l as [|a' l].
      * inversion Hl'; subst. done.
      * apply (set_head_set_head this None nxt).
    + by rewrite <-app_assoc.
Qed.

Lemma clear_spec this s l :
  this ∉ exited s →
  is_list (heap s) (sentinel s !! this) l →
  Pool.clear this s =
  Ok tt {| heap := foldl (λ h a, delete a h) (heap s) l;
           sentinel := delete this (sentinel s);
           exited := exited s; oracle := oracle s;
           trace := trace s ++ map (λ a, Delete a None) l |}.
Proof.
  intros Hlive Hl. unfold Pool.clear.
  rewrite (bind_Ok _ _ _ _ _ (load_eq _ _ Hlive)).
  rewrite (clear_loop_spec this l); [|done|done|].
  - f_equal. f_equal. destruct l; [|done].
    inversion Hl as [Hnone|]. symmetry. by apply delete_id.
  - pose proof (is_list_length _ _ _ Hl). lia.
Qed.


(** The loop of [clear] never runs out of fuel, whatever the heap holds:
    each iteration releases a live block. *)
Lemma clear_loop_no_timeout this : ∀ fuel p s,
  size (heap s) < fuel → Pool.clear_loop fuel this p s ≠ timeout.
Proof.
  induction fuel as [|fuel IH]; intros p s Hfuel; [lia|].
  destruct p as [a|]; [|done]. simpl.
  unfold read_next, get_block, operator_delete, Pool.store, fail_undefined,
    mbind, M_bind, mret, M_ret.
  destruct (heap s !! a) as [b|] eqn:Hb; [|done].
  destruct (next b) as [nxt|]; [|done].
  destruct (decide (this ∈ exited s)); [done|]. simpl. rewrite Hb.
  apply IH. simpl. rewrite map_size_delete, Hb.
  assert (size (heap s) ≠ 0); [|lia].
  intros Hz. apply map_size_empty_inv in Hz. rewrite Hz in Hb.
  by rewrite lookup_empty in Hb.
Qed.

Lemma clear_no_timeout this s : Pool.clear this s ≠ timeout.
Proof.
  unfold Pool.clear, Pool.load, mbind, M_bind.
  destruct (decide (this ∈ exited s)); [done|].
  apply clear_loop_no_timeout. lia.
Qed.

(** ** Inverting a successful request *)

Lemma operator_new_Ok sz s a s' :
  operator_new sz s = Ok a s' →
  ∃ o, oracle s = Some a :: o ∧ heap s !! a = None ∧
       s' = {| heap := <[a := {| bytes := sz; next := None; pool := None |}]> (heap s);
               sentinel := sentinel s; exited := exited s;
               oracle := o; trace := trace s ++ [New sz a] |}.
Proof.
  unfold operator_new. destruct (oracle s) as [|[a'|] o]; try discriminate.
  destruct (heap s !! a') eqn:E; try discriminate.
  intros [= <- <-]. by exists o.
Qed.

Lemma operator_new_bad_alloc sz s s' :
  operator_new sz s = bad_alloc s' →
  s' = set_sys (tail (oracle s)) (trace s ++ [NewFailed sz]) s.
Proof.
  unfold operator_new. destruct (oracle s) as [|[a'|] o]; try discriminate.
  - by intros [= <-].
  - destruct (heap s !! a'); try discriminate. by intros [= <-].
  - by intros [= <-].
Qed.

Lemma operator_new_defined sz s :
  operator_new sz s ≠ undefined ∧ operator_new sz s ≠ timeout.
Proof.
  unfold operator_new. destruct (oracle s) as [|[a'|] o]; try done.
  by destruct (heap s !! a').
Qed.

Lemma allocate_miss_Ok T self s p s' :
  self ∉ exited s →
  sentinel s !! self = None →
  allocate T self 1 s = Ok p s' →
  ∃ a o, p = Some a ∧ oracle s = Some a :: o ∧ heap s !! a = None.
Proof.
  intros Hlive Hhd H.
  destruct (oracle s) as [|[a|] o] eqn:Ho.
  - rewrite allocate_miss_bad_alloc in H; [done..|]. by rewrite Ho.
  - destruct (heap s !! a) eqn:Hb.
    + rewrite allocate_miss_bad_alloc in H; [done..|].
      intros a' o'. rewrite Ho. intros [= <- <-]. eauto.
    + rewrite (allocate_miss _ _ _ a o) in H by done.
      injection H as <- <-. by exists a, o.
  - rewrite allocate_miss_bad_alloc in H; [done..|]. by rewrite Ho.
Qed.

(** The bulk path of [allocate]. *)
Lemma allocate_bulk T self n s :
  n ≠ 1%Z →
  allocate T self n s =
  (a ← operator_new (size_mul n (sizeof_Node T)); mret (Some a)) s.
Proof. intros Hn. unfold allocate. by rewrite decide_False. Qed.

(** The bulk path of [deallocate]. *)
Lemma deallocate_bulk T self a n s :
  n ≠ 0%Z → n ≠ 1%Z →
  deallocate T self (Some a) n s =
  operator_delete (Some a) (Some (size_mul n (sizeof_value_type T))) s.
Proof. intros H0 H1. unfold deallocate. by rewrite !decide_False. Qed.


(** * Reachable states *)

Lemma is_list_agree h h' p l :
  (∀ x, x ∈ l → h' !! x = h !! x) → is_list h p l → is_list h' p l.
Proof.
  intros Hagree H. induction H as [|a b nxt l Hb Hnx _ IH]; [constructor|].
  econstructor; [|done|].
  - rewrite Hagree; [done|by left].
  - apply IH. intros x Hx. apply Hagree. by right.
Qed.

(** A cache is untouched by a change of the heap and of the program's
    blocks outside its cells. *)
Lemma cache_agree h h' (ow ow' : gmap positive Z) p l t :
  (∀ x, x ∈ l → h' !! x = h !! x) →
  (∀ x, x ∈ l → ow' !! x = ow !! x) →
  is_list h p l →
  Forall (λ a, backref h a = Some t ∧ ow !! a = None) l →
  is_list h' p l ∧ Forall (λ a, backref h' a = Some t ∧ ow' !! a = None) l.
Proof.
  intros Hh How Hl Hall. split; [by eapply is_list_agree|].
  apply Forall_forall. intros x Hx.
  rewrite Forall_forall in Hall. destruct (Hall x Hx) as [Hback Hnone].
  unfold backref. rewrite Hh, How by done. done.
Qed.

Lemma deallocate_one_Ok T self a s s' :
  deallocate T self (Some a) 1 s = Ok tt s' →
  ∃ b owner, heap s !! a = Some b ∧ pool b = Some owner ∧ owner ∉ exited s.
Proof.
  intros H.
  destruct (heap s !! a) as [b|] eqn:Hb; [|by revert H; unfold_calls; crunch].
  destruct (pool b) as [owner|] eqn:Hown; [|by revert H; unfold_calls; crunch].
  destruct (decide (owner ∈ exited s)) as [Hex|Hlive];
    [by revert H; unfold_calls; crunch|].
  by exists b, owner.
Qed.

Lemma wf_initial o : wf (initial o) ∅.
Proof. intros t. exists []. split; [|constructor]. simpl. rewrite lookup_empty. constructor. Qed.

(** A fresh block enters the heap and the program's blocks. *)
Lemma wf_fresh s ow a b n o tr :
  wf s ow →
  heap s !! a = None →
  wf {| heap := <[a := b]> (heap s); sentinel := sentinel s;
        exited := exited s; oracle := o; trace := tr |} (<[a := n]> ow).
Proof.
  intros Hwf Hfresh t. destruct (Hwf t) as (l & Hl & Hall). exists l. simpl.
  assert (a ∉ l) as Hnin.
  { intros Hin. destruct (is_list_live _ _ _ _ Hl Hin) as [? ?]. congruence. }
  eapply cache_agree; [| |done..].
  - intros x Hx. apply lookup_insert_ne. congruence.
  - intros x Hx. apply lookup_insert_ne. congruence.
Qed.

Lemma wf_allocate T self n s ow s' ow' :
  wf s ow →
  exec T (Call_allocate self n) (s, ow) = Some (s', ow') →
  wf s' ow'.
Proof.
  intros Hwf. unfold exec. destruct (decide (self ∈ exited s)) as [|Hlive]; [done|].
  destruct (decide (n = 1%Z)) as [->|Hn].
  - destruct (sentinel s !! self) as [a|] eqn:Hhd.
    + destruct (Hwf self) as (l & Hl & Hall). rewrite Hhd in Hl.
      inversion Hl as [|? b nxt l' Hb Hnx Hl']; subst.
      rewrite (allocate_hit _ _ _ _ _ _ Hlive Hhd Hb Hnx).
      intros [= <- <-]. intros t.
      apply Forall_cons in Hall as [[Hback _] Hall].
      pose proof (is_list_head_fresh _ _ _ Hl) as Hfresh.
      destruct (decide (t = self)) as [->|Hne].
      * exists l'. simpl. rewrite lookup_set_head_eq.
        eapply cache_agree; [done| |done..].
        intros x Hx. apply lookup_insert_ne. congruence.
      * destruct (Hwf t) as (lt & Hlt & Hallt). exists lt. simpl.
        rewrite lookup_set_head_ne by done.
        eapply cache_agree; [done| |done..].
        intros x Hx. apply lookup_insert_ne. intros <-.
        rewrite Forall_forall in Hallt. destruct (Hallt _ Hx) as [Hback' _].
        congruence.
    + destruct (oracle s) as [|[a|] o] eqn:Ho.
      * rewrite allocate_miss_bad_alloc; [|done..|by rewrite Ho].
        by intros [= <- <-].
      * destruct (heap s !! a) as [b|] eqn:Hb.
        -- rewrite allocate_miss_bad_alloc; [|done..|].
           ++ by intros [= <- <-].
           ++ intros a' o'. rewrite Ho. intros [= <- <-]. eauto.
        -- rewrite (allocate_miss _ _ _ a o) by done.
           intros [= <- <-]. by apply wf_fresh.
      * rewrite allocate_miss_bad_alloc; [|done..|by rewrite Ho].
        by intros [= <- <-].
  - rewrite allocate_bulk by done. unfold mbind, M_bind.
    destruct (operator_new _ s) as [a s1|s1| |] eqn:Hnew; [| |done..].
    + apply operator_new_Ok in Hnew as (o & Ho & Hfresh & ->).
      intros [= <- <-]. by apply wf_fresh.
    + apply operator_new_bad_alloc in Hnew as ->. by intros [= <- <-].
Qed.

Lemma wf_deallocate T self a n s ow s' ow' :
  wf s ow →
  exec T (Call_deallocate self a n) (s, ow) = Some (s', ow') →
  wf s' ow'.
Proof.
  intros Hwf. unfold exec. destruct (decide (self ∈ exited s)) as [|Hlive]; [done|].
  destruct (decide (ow !! a = Some n)) as [How|]; [|done].
  assert (∀ t l, is_list (heap s) (sentinel s !! t) l →
                 Forall (λ a, backref (heap s) a = Some t ∧ ow !! a = None) l →
                 a ∉ l) as Hnin.
  { intros t l _ Hall Hin. rewrite Forall_forall in Hall.
    destruct (Hall _ Hin) as [_ Hnone]. congruence. }
  destruct (decide (n = 0%Z)) as [->|H0].
  { unfold deallocate. rewrite decide_True by done.
    intros [= <- <-]. intros t. destruct (Hwf t) as (l & Hl & Hall).
    exists l. eapply cache_agree; [done| |done..].
    intros x Hx. apply lookup_delete_ne. intros <-. by eapply Hnin. }
  destruct (decide (n = 1%Z)) as [->|H1].
  - destruct (deallocate T self (Some a) 1 s) as [[] s1| | |] eqn:Hd; try done.
    destruct (deallocate_one_Ok _ _ _ _ _ Hd) as (b & owner & Hb & Hown & Hlo).
    rewrite (deallocate_one _ _ _ _ _ _ Hb Hown Hlo) in Hd.
    injection Hd as <-. intros [= <- <-]. intros t.
    destruct (Hwf t) as (l & Hl & Hall).
    pose proof (Hnin _ _ Hl Hall) as Hal.
    assert (is_list (<[a := {| bytes := bytes b;
                               next := Some (sentinel s !! owner);
                               pool := Some owner |}]> (heap s))
              (sentinel s !! t) l ∧
            Forall (λ x, backref (<[a := {| bytes := bytes b;
                               next := Some (sentinel s !! owner);
                               pool := Some owner |}]> (heap s)) x = Some t ∧
                         delete a ow !! x = None) l) as [Hl' Hall'].
    { eapply cache_agree; [| |done..].
      - intros x Hx. apply lookup_insert_ne. congruence.
      - intros x Hx. apply lookup_delete_ne. congruence. }
    destruct (decide (t = owner)) as [->|Hne].
    + exists (a :: l). simpl. rewrite lookup_insert_eq. split.
      * econstructor; [apply lookup_insert_eq|done|done].
      * apply Forall_cons. split; [|done].
        unfold backref. by rewrite lookup_insert_eq, lookup_delete_eq.
    + exists l. simpl. by rewrite lookup_insert_ne.
  - rewrite deallocate_bulk by done. unfold operator_delete.
    destruct (heap s !! a) as [b|] eqn:Hb; [|done].
    intros [= <- <-]. intros t. destruct (Hwf t) as (l & Hl & Hall).
    exists l. simpl. pose proof (Hnin _ _ Hl Hall) as Hal.
    eapply cache_agree; [| |done..].
    + intros x Hx. apply lookup_delete_ne. congruence.
    + intros x Hx. apply lookup_delete_ne. congruence.
Qed.

Lemma wf_clear self s ow l :
  wf s ow →
  is_list (heap s) (sentinel s !! self) l →
  wf {| heap := foldl (λ h a, delete a h) (heap s) l;
        sentinel := delete self (sentinel s);
        exited := exited s; oracle := oracle s;
        trace := trace s ++ map (λ a, Delete a None) l |} ow.
Proof.
  intros Hwf Hl t. destruct (decide (t = self)) as [->|Hne].
  - exists []. simpl. rewrite lookup_delete_eq. split; constructor.
  - destruct (Hwf t) as (lt & Hlt & Hallt).
    destruct (Hwf self) as (l0 & Hl0 & Hall0).
    pose proof (is_list_det _ _ _ _ Hl Hl0) as ->.
    exists lt. simpl. rewrite lookup_delete_ne by done.
    eapply cache_agree; [|done|done..].
    intros x Hx. rewrite lookup_foldl_delete.
    destruct (decide (x ∈ l0)) as [Hin|]; [|done].
    rewrite Forall_forall in Hallt, Hall0.
    destruct (Hallt _ Hx) as [? _]. destruct (Hall0 _ Hin) as [? _]. congruence.
Qed.

(** The invariant holds in every state that a program reaches by calls
    that keep to the protocol. *)
Lemma exec_wf T c s ow s' ow' :
  wf s ow → exec T c (s, ow) = Some (s', ow') → wf s' ow'.
Proof.
  intros Hwf. destruct c as [self n|self a n|self|self].
  - by apply wf_allocate.
  - by apply wf_deallocate.
  - unfold exec. destruct (decide (self ∈ exited s)) as [|Hlive]; [done|].
    destruct (Hwf self) as (l & Hl & _).
    unfold clear. rewrite (clear_spec _ _ _ Hlive Hl).
    intros [= <- <-]. by apply wf_clear.
  - unfold exec. destruct (decide (self ∈ exited s)) as [|Hlive]; [done|].
    destruct (Hwf self) as (l & Hl & _).
    unfold Pool.destroy. rewrite (bind_Ok _ _ _ _ _ (clear_spec _ _ _ Hlive Hl)).
    intros [= <- <-]. by apply (wf_clear self s ow l).
Qed.

Lemma reachable_wf T s ow : reachable T s ow → wf s ow.
Proof.
  induction 1 as [o|c s ow s' ow' _ IH Hexec]; [apply wf_initial|].
  by eapply exec_wf.
Qed.

(** In particular the cache of every thread satisfies [pool_inv]. *)
Lemma reachable_pool_inv T s ow t : reachable T s ow → pool_inv s t.
Proof.
  intros H. destruct (reachable_wf _ _ _ H t) as (l & Hl & Hall).
  exists l. split; [done|]. eapply Forall_impl; [done|]. by intros x [? _].
Qed.

(** * The single-element path *)

(** C5: [allocate(1)] pops from the cache of the calling thread.  On a hit
    it returns the head cell, the head becomes that cell's [next] link and
    nothing else changes: no other cache, no cell, no call to the system
    allocator.  On a miss it makes exactly one request, of [sizeof(Node)]
    bytes, to the system allocator; when the request succeeds the new cell
    gets the caller's cache as back-reference and is returned, the cache
    staying empty; when it fails the failure is the caller's. *)
Theorem allocate_one_pops_or_requests T self s :
  self ∉ exited s →
  (∀ a b nxt,
     sentinel s !! self = Some a → heap s !! a = Some b → next b = Some nxt →
     ∃ s', allocate T self 1 s = Ok (Some a) s' ∧
           sentinel s' !! self = nxt ∧
           (∀ t, t ≠ self → sentinel s' !! t = sentinel s !! t) ∧
           heap s' = heap s ∧ oracle s' = oracle s ∧ trace s' = trace s)
  ∧
  (sentinel s !! self = None →
     match operator_new (sizeof_Node T) s with
     | Ok a _ =>
         ∃ s', allocate T self 1 s = Ok (Some a) s' ∧
               trace s' = trace s ++ [New (sizeof_Node T) a] ∧
               heap s !! a = None ∧
               backref (heap s') a = Some self ∧
               (∀ a', a' ≠ a → heap s' !! a' = heap s !! a') ∧
               sentinel s' = sentinel s
     | bad_alloc s' =>
         allocate T self 1 s = bad_alloc s' ∧
         trace s' = trace s ++ [NewFailed (sizeof_Node T)] ∧
         heap s' = heap s ∧ sentinel s' = sentinel s
     | undefined | timeout => False
     end).
Proof.
  intros Hlive. split.
  - intros a b nxt Hhd Hb Hnx. eexists. split; [by eapply allocate_hit|].
    simpl. split; [apply lookup_set_head_eq|].
    split; [|done]. intros t Hne. by apply lookup_set_head_ne.
  - intros Hhd. destruct (operator_new (sizeof_Node T) s) as [a s1|s1| |] eqn:Hnew.
    + apply operator_new_Ok in Hnew as (o & Ho & Hfresh & ->).
      eexists. split; [by eapply allocate_miss|]. simpl.
      split; [done|]. split; [done|]. split.
      * unfold backref. by rewrite lookup_insert_eq.
      * split; [|done]. intros a' Hne. by apply lookup_insert_ne.
    + pose proof (operator_new_bad_alloc _ _ _ Hnew) as ->.
      split; [|done]. unfold allocate. rewrite decide_True by done.
      rewrite (bind_Ok _ _ _ _ _ (load_eq _ _ Hlive)), Hhd.
      by rewrite (bind_bad_alloc _ _ _ _ Hnew).
    + by destruct (operator_new_defined (sizeof_Node T) s).
    + by destruct (operator_new_defined (sizeof_Node T) s).
Qed.

Lemma two_free_cells_live : 1%positive ∉ exited two_free_cells.
Proof. apply not_elem_of_empty. Defined.

Lemma allocate_one_pops_or_requests_witness :
  (1%positive ∉ exited two_free_cells) ∧
  ∃ s', allocate int_LP64 1 1 two_free_cells = Ok (Some 10%positive) s' ∧
        sentinel s' !! 1%positive = Some 11%positive.
Proof.
  split; [exact two_free_cells_live|].
  destruct (allocate_one_pops_or_requests int_LP64 1 two_free_cells
              two_free_cells_live) as [Hhit _].
  destruct (Hhit 10%positive
              {| bytes := 16; next := Some (Some 11%positive);
                 pool := Some 1%positive |}
              (Some 11%positive) eq_refl eq_refl eq_refl)
    as (s' & Hs' & Hhd & _).
  exists s'. by split.
Defined.

(** C3: [deallocate(p, 1)] pushes the cell onto the cache named by the
    cell's back-reference, whichever thread calls it: that cache gets the
    cell as its head and the cell's [next] link is the previous head; every
    other cache, the calling thread's included, keeps its head, and no
    other cell is written. *)
Theorem deallocate_one_pushes_to_owner T self s a owner :
  backref (heap s) a = Some owner →
  owner ∉ exited s →
  ∃ s', deallocate T self (Some a) 1 s = Ok tt s' ∧
        sentinel s' !! owner = Some a ∧
        (heap s' !! a ≫= next) = Some (sentinel s !! owner) ∧
        backref (heap s') a = Some owner ∧
        (∀ t, t ≠ owner → sentinel s' !! t = sentinel s !! t) ∧
        (∀ a', a' ≠ a → heap s' !! a' = heap s !! a') ∧
        oracle s' = oracle s ∧ trace s' = trace s.
Proof.
  unfold backref. intros Hback Hlive.
  destruct (heap s !! a) as [b|] eqn:Hb; [simpl in Hback|done].
  eexists. split; [by eapply deallocate_one|]. simpl.
  split; [apply lookup_insert_eq|].
  split; [by rewrite lookup_insert_eq|].
  split; [by rewrite lookup_insert_eq|].
  split; [intros t Hne; by apply lookup_insert_ne|].
  split; [intros a' Hne; by apply lookup_insert_ne|done].
Qed.

Lemma deallocate_one_pushes_to_owner_witness :
  ∃ s', deallocate int_LP64 2 (Some 12%positive) 1 cell_handed_over = Ok tt s' ∧
        sentinel s' !! 1%positive = Some 12%positive ∧
        sentinel s' !! 2%positive = None.
Proof.
  destruct (deallocate_one_pushes_to_owner int_LP64 2 cell_handed_over
              12 1 eq_refl two_free_cells_live)
    as (s' & Hs' & Hhd & _ & _ & Hother & _).
  exists s'. split; [done|]. split; [done|].
  by rewrite Hother.
Defined.

(** A cell returned by [allocate(1)] carries the caller's cache as
    back-reference, on a miss because it is stamped, on a hit because the
    cells of the cache do. *)
Lemma allocate_one_backref T self s a s' :
  self ∉ exited s →
  pool_inv s self →
  allocate T self 1 s = Ok (Some a) s' →
  backref (heap s') a = Some self.
Proof.
  intros Hlive (l & Hl & Hown) H.
  destruct (sentinel s !! self) as [a0|] eqn:Hhd.
  - inversion Hl as [|? b nxt l' Hb Hnx Hl']; subst.
    rewrite (allocate_hit _ _ _ _ _ _ Hlive Hhd Hb Hnx) in H.
    injection H as <- <-. simpl. by apply Forall_cons in Hown as [? _].
  - destruct (allocate_miss_Ok _ _ _ _ _ Hlive Hhd H) as (a0 & o & [= ->] & Ho & Hfresh).
    rewrite (allocate_miss _ _ _ _ _ Hlive Hhd Ho Hfresh) in H.
    injection H as <-. unfold backref. simpl. by rewrite lookup_insert_eq.
Qed.

(** C1: a thread that allocates one element, deallocates it and allocates
    one element again, with nothing in between, gets the same address
    twice; the second call makes no request to the system allocator. *)
Theorem round_trip_recycling T self s p s1 :
  self ∉ exited s →
  pool_inv s self →
  allocate T self 1 s = Ok p s1 →
  p ≠ nullptr ∧
  ∃ s2 s3, deallocate T self p 1 s1 = Ok tt s2 ∧
           allocate T self 1 s2 = Ok p s3 ∧
           trace s3 = trace s1.
Proof.
  intros Hlive (l & Hl & Hown) H1.
  destruct (sentinel s !! self) as [a|] eqn:Hhd.
  - inversion Hl as [|? b nxt l' Hb Hnx Hl']; subst.
    rewrite (allocate_hit _ _ _ _ _ _ Hlive Hhd Hb Hnx) in H1.
    injection H1 as <- <-. split; [done|].
    apply Forall_cons in Hown as [Hback _].
    unfold backref in Hback. rewrite Hb in Hback. simpl in Hback.
    eexists _, _. split; [by eapply deallocate_one|].
    split.
    { eapply allocate_hit; simpl; [done|apply lookup_insert_eq..|done]. }
    done.

  - destruct (allocate_miss_Ok _ _ _ _ _ Hlive Hhd H1) as (a & o & -> & Ho & Hfresh).
    rewrite (allocate_miss _ _ _ _ _ Hlive Hhd Ho Hfresh) in H1.
    injection H1 as <-. split; [done|].
    eexists _, _. split.
    { eapply deallocate_one; simpl; [apply lookup_insert_eq|done..]. }
    split.
    { eapply allocate_hit; simpl; [done|apply lookup_insert_eq..|done]. }
    done.
Qed.

Lemma two_free_cells_inv : pool_inv two_free_cells 1.
Proof.
  exists [10; 11]%positive. split.
  - apply walk_sound with (fuel := 2). reflexivity.
  - repeat constructor.
Defined.

Lemma round_trip_recycling_witness :
  ∃ s2 s3,
    deallocate int_LP64 1 (Some 10%positive) 1
      (set_sentinel {[ 1%positive := 11%positive ]} two_free_cells) = Ok tt s2 ∧
    allocate int_LP64 1 1 s2 = Ok (Some 10%positive) s3.
Proof.
  destruct (round_trip_recycling int_LP64 1 two_free_cells (Some 10%positive)
              (set_sentinel {[ 1%positive := 11%positive ]} two_free_cells)
              two_free_cells_live two_free_cells_inv)
    as (_ & s2 & s3 & H2 & H3 & _).
  - vm_compute. reflexivity.
  - by exists s2, s3.
Defined.

(** C4: [deallocate(p, n)] with a null [p] or with [n == 0] returns in the
    state it was called in: no cache, no cell and no part of the system
    allocator has changed, and [p] was not looked at (the call succeeds
    for a [p] that is not a live block as well). *)
Theorem deallocate_null_or_zero_is_noop T self p n s :
  p = nullptr ∨ n = 0%Z →
  deallocate T self p n s = Ok tt s.
Proof.
  intros [->| ->]; [done|]. unfold deallocate. by destruct p.
Qed.

Lemma deallocate_null_or_zero_is_noop_witness :
  deallocate int_LP64 1 nullptr 1 two_free_cells = Ok tt two_free_cells ∧
  deallocate int_LP64 1 (Some 77%positive) 0 two_free_cells = Ok tt two_free_cells.
Proof.
  split.
  - apply (deallocate_null_or_zero_is_noop int_LP64 1 nullptr 1). by left.
  - apply (deallocate_null_or_zero_is_noop int_LP64 1 (Some 77%positive) 0).
    by right.
Defined.

(** C8: [operator==] on two facade instances is [true]; it takes neither a
    thread nor a state, and the element types need not even agree. *)
Theorem operator_eq_always_true (T1 T2 : ElemType)
    (lhs : PoolAllocator.t T1) (rhs : PoolAllocator.t T2) :
  operator_eq lhs rhs = true.
Proof. reflexivity. Qed.

(** * The bulk path *)

(** The pointer that [allocate] returns does not depend on the trace of
    earlier calls to the system allocator. *)
Lemma allocate_returned_trace T self n o tr tr' s :
  returned (allocate T self n (set_sys o tr s)) =
  returned (allocate T self n (set_sys o tr' s)).
Proof.
  unfold allocate, Pool.compare_exchange. simpl.
  unfold Pool.compare_exchange_weak, Pool.load, Pool.store, operator_new.
  run_monad.
  repeat (case_match; simplify_eq/=; try done).
Qed.

(** C7: for [n > 1], [allocate(n)] leaves every cache and every cell as it
    was, and after the matching [deallocate(p, n)] the state differs from
    the one before the pair in the system allocator's part only.  A later
    [allocate(1)] by any thread therefore returns what it would have
    returned without the pair, the system allocator giving the same
    answers. *)
Theorem bulk_pair_leaves_cache T self self' n s p s1 :
  (1 < n)%Z →
  allocate T self n s = Ok p s1 →
  sentinel s1 = sentinel s ∧
  (∀ a, is_Some (heap s !! a) → heap s1 !! a = heap s !! a) ∧
  ∃ s2, deallocate T self' p n s1 = Ok tt s2 ∧
        heap s2 = heap s ∧ sentinel s2 = sentinel s ∧ exited s2 = exited s ∧
        ∀ u, returned (allocate T u 1 s2) =
             returned (allocate T u 1 (set_sys (oracle s2) (trace s) s)).
Proof.
  intros Hn H1. rewrite allocate_bulk in H1 by lia.
  apply bind_inv_Ok in H1 as (a & s1' & Hnew & [= <- <-]).
  apply operator_new_Ok in Hnew as (o & Ho & Hfresh & ->).
  split; [done|]. split.
  { intros a' [b Hb]. simpl. apply lookup_insert_ne. congruence. }
  eexists. split.
  { rewrite deallocate_bulk by lia. unfold operator_delete. simpl.
    by rewrite lookup_insert_eq. }
  simpl. rewrite delete_insert_eq, delete_id by done.
  split; [done|]. split; [done|]. split; [done|].
  intros u. apply (allocate_returned_trace T u 1 o _ (trace s) s).
Qed.

Lemma bulk_pair_leaves_cache_witness :
  ∃ s1 s2,
    allocate int_LP64 1 3 two_free_cells = Ok (Some 12%positive) s1 ∧
    deallocate int_LP64 2 (Some 12%positive) 3 s1 = Ok tt s2 ∧
    heap s2 = heap two_free_cells ∧ sentinel s2 = sentinel two_free_cells.
Proof.
  eexists. 
  assert (1 < 3)%Z as Hn by lia.
  destruct (bulk_pair_leaves_cache int_LP64 1 2 3 two_free_cells _ _ Hn eq_refl)
    as (_ & _ & s2 & H2 & Hh & Hs & _).
  exists s2. done.
Defined.

(** C10: [allocate(0)] goes to the system allocator with a request of zero
    bytes, whatever the caches hold and even for a thread without a live
    cache.  What the call does is what that request does: when the system
    allocator yields a block the call returns it, when it refuses the call
    throws [bad_alloc].  The block has no back-reference; caches and
    existing cells are unchanged. *)
Theorem allocate_zero_bypasses_cache T self s :
  (∀ m e, returned (allocate T self 0 (set_exited e (set_sentinel m s))) =
          returned (allocate T self 0 s)) ∧
  (∀ a o, oracle s = Some a :: o → heap s !! a = None →
          allocate T self 0 s =
          Ok (Some a)
             {| heap := <[a := {| bytes := 0; next := None; pool := None |}]> (heap s);
                sentinel := sentinel s; exited := exited s;
                oracle := o; trace := trace s ++ [New 0 a] |}) ∧
  match operator_new 0 s with
  | Ok a s' =>
      allocate T self 0 s = Ok (Some a) s' ∧
      trace s' = trace s ++ [New 0 a] ∧
      heap s !! a = None ∧
      heap s' = <[a := {| bytes := 0; next := None; pool := None |}]> (heap s) ∧
      backref (heap s') a = None ∧
      sentinel s' = sentinel s
  | bad_alloc s' =>
      allocate T self 0 s = bad_alloc s' ∧
      trace s' = trace s ++ [NewFailed 0] ∧
      heap s' = heap s ∧ sentinel s' = sentinel s
  | undefined | timeout => False
  end.
Proof.
  split; [|split].
  - intros m e. rewrite !allocate_bulk by done.
    unfold operator_new, mbind, M_bind, mret, M_ret. simpl.
    repeat (case_match; simplify_eq/=; try done).
  - intros a o Ho Hfresh. rewrite allocate_bulk by done.
    assert (size_mul 0 (sizeof_Node T) = 0%Z) as -> by done.
    unfold operator_new, mbind, M_bind, mret, M_ret. by rewrite Ho, Hfresh.
  - rewrite allocate_bulk by done.
    assert (size_mul 0 (sizeof_Node T) = 0%Z) as -> by done.
    unfold mbind, M_bind.
    destruct (operator_new 0 s) as [a s'|s'| |] eqn:Hnew.
    + split; [done|].
      apply operator_new_Ok in Hnew as (o & Ho & Hfresh & ->). simpl.
      split; [done|]. split; [done|]. split; [done|]. split; [|done].
      unfold backref. by rewrite lookup_insert_eq.
    + split; [done|]. by rewrite (operator_new_bad_alloc _ _ _ Hnew).
    + by destruct (operator_new_defined 0 s).
    + by destruct (operator_new_defined 0 s).
Qed.

Lemma allocate_zero_bypasses_cache_witness :
  ∃ s', allocate int_LP64 1 0 two_free_cells = Ok (Some 12%positive) s' ∧
        trace s' = trace two_free_cells ++ [New 0 12] ∧
        allocate int_LP64 1 0 (set_sys [None] [] two_free_cells)
          = bad_alloc (set_sys [] [NewFailed 0] two_free_cells).
Proof.
  destruct (allocate_zero_bypasses_cache int_LP64 1 two_free_cells)
    as (_ & Hyield & _).
  eexists. split; [apply (Hyield 12%positive []); reflexivity|].
  split; [reflexivity|].
  destruct (allocate_zero_bypasses_cache int_LP64 1
              (set_sys [None] [] two_free_cells)) as (_ & _ & Hrefuse).
  exact (proj1 Hrefuse).
Defined.

(** * Releasing the cache *)

(** C6: [clear()] releases to the system allocator the cells that are in
    the calling thread's free list when it is called, each of them once,
    in list order, and nothing else; afterwards the cache is empty, these
    cells are gone and every other block and cache is as before.  The
    destructor of the cache does the same and then ends the cache's
    lifetime. *)
Theorem clear_releases_free_list T self s l :
  self ∉ exited s →
  free_list s self = Some l →
  ∃ s', clear T self s = Ok tt s' ∧
        trace s' = trace s ++ map (λ a, Delete a None) l ∧
        sentinel s' !! self = None ∧
        free_list s' self = Some [] ∧
        (∀ a, heap s' !! a = if decide (a ∈ l) then None else heap s !! a) ∧
        (∀ t, t ≠ self → sentinel s' !! t = sentinel s !! t) ∧
        Pool.destroy self s = Ok tt (set_exited ({[self]} ∪ exited s) s').
Proof.
  intros Hlive Hl. apply free_list_is_list in Hl.
  eexists. split; [by apply clear_spec|]. simpl.
  split; [done|]. split; [apply lookup_delete_eq|].
  split.
  { apply free_list_is_list. simpl. rewrite lookup_delete_eq. constructor. }
  split; [apply lookup_foldl_delete|].
  split; [intros t Hne; by apply lookup_delete_ne|].
  unfold Pool.destroy. by rewrite (bind_Ok _ _ _ _ _ (clear_spec _ _ _ Hlive Hl)).
Qed.

Lemma clear_releases_free_list_witness :
  ∃ s', clear int_LP64 1 two_free_cells = Ok tt s' ∧
        trace s' = trace two_free_cells ++ [Delete 10 None; Delete 11 None] ∧
        heap s' !! 10%positive = None ∧ heap s' !! 11%positive = None ∧
        sentinel s' !! 1%positive = None.
Proof.
  destruct (clear_releases_free_list int_LP64 1 two_free_cells [10; 11]%positive
              two_free_cells_live eq_refl)
    as (s' & Hs' & Htr & Hhd & _ & Hheap & _).
  exists s'. split; [done|]. split; [done|].
  split; [by rewrite Hheap|]. split; [by rewrite Hheap|done].
Defined.

(** * The sizes passed to the system allocator on the bulk path *)

(** What a bulk pair asks of the system allocator: a request of
    [n * sizeof(Node)] bytes, and a release announced with
    [n * sizeof(value_type)] bytes. *)
Lemma bulk_pair_trace T self self' n s a s1 :
  n ≠ 0%Z → n ≠ 1%Z →
  allocate T self n s = Ok (Some a) s1 →
  requested_size (trace s1) a = Some (size_mul n (sizeof_Node T)) ∧
  ∃ s2, deallocate T self' (Some a) n s1 = Ok tt s2 ∧
        trace s2 = trace s ++ [New (size_mul n (sizeof_Node T)) a;
                               Delete a (Some (size_mul n (sizeof_value_type T)))].
Proof.
  intros H0 H1 Ha. rewrite allocate_bulk in Ha by done.
  apply bind_inv_Ok in Ha as (a' & s1' & Hnew & [= <- <-]).
  apply operator_new_Ok in Hnew as (o & Ho & Hfresh & ->). split.
  - simpl. induction (trace s) as [|[sz0 a0|sz0|a0 sz0] tr IH]; simpl.
    + by rewrite decide_True.
    + by rewrite IH.
    + done.
    + done.
  - eexists. split.
    { rewrite deallocate_bulk by done. unfold operator_delete. simpl.
      by rewrite lookup_insert_eq. }
    simpl. by rewrite <-app_assoc.
Qed.

(** A cell is larger than an element, so that the two sizes differ whenever
    the products do not wrap. *)
Lemma bulk_sizes_differ T n :
  (0 ≤ sizeof_value_type T < sizeof_Node T)%Z →
  (1 < n)%Z →
  (n * sizeof_Node T < size_max)%Z →
  size_mul n (sizeof_Node T) ≠ size_mul n (sizeof_value_type T).
Proof.
  intros HT Hn Hmax. unfold size_mul.
  rewrite !Z.mod_small; nia.
Qed.

(** C2, at [T = int], [n = 2]: the block is requested with 32 bytes and
    released with 8. *)
Theorem bulk_release_size_mismatch :
  ∃ s1 s2,
    allocate int_LP64 1 2 (initial [Some 10%positive]) = Ok (Some 10%positive) s1 ∧
    requested_size (trace s1) 10 = Some 32%Z ∧
    deallocate int_LP64 1 (Some 10%positive) 2 s1 = Ok tt s2 ∧
    trace s2 = [New 32 10; Delete 10 (Some 8%Z)].
Proof.
  eexists _, _. split; [reflexivity|]. split; [reflexivity|].
  split; reflexivity.
Qed.

(** * Interleavings *)

(** A call that is not interrupted goes through the frames to the result
    of the function. *)
Lemma run_frame_allocate T self s :
  run_frame 3 T self Allocate_entry s = allocate T self 1 s.
Proof.
  unfold_calls.
  destruct (decide (self ∈ exited s)) as [Hex|Hlive]; [by crunch|].
  destruct (sentinel s !! self) as [a|] eqn:Hhd.
  - destruct (heap s !! a) as [b|] eqn:Hb; [|by crunch].
    destruct (next b) as [nxt|] eqn:Hnx; by crunch.
  - destruct (oracle s) as [|[a|] o] eqn:Ho; [by crunch| |by crunch].
    destruct (heap s !! a) as [b|] eqn:Hb; by crunch.
Qed.

Lemma run_frame_deallocate T self a s :
  run_frame 2 T self (Deallocate_entry a) s =
  (deallocate T self (Some a) 1;; mret nullptr) s.
Proof.
  unfold_calls.
  destruct (heap s !! a) as [b|] eqn:Hb; [|by crunch].
  destruct (pool b) as [owner|] eqn:Hown; [|by crunch].
  destruct (decide (owner ∈ exited s)) as [Hex|Hlive]; by crunch.
Qed.

(** C9, on the schedule [race_schedule]: thread 2 pushes cell 12 between
    the load and the compare-and-swap of thread 1's pop.  The first attempt
    of thread 1 fails and sets [expected] to 12; the second attempt
    installs the link read from cell 10 before the push.  The call returns
    cell 12, the cache holds cell 11 only, and cell 10 is lost: it is
    live, no client holds it, it is in no cache, and the teardown of its
    cache does not release it. *)
Theorem pop_retry_loses_cell :
  run int_LP64 race_schedule (start [Some 10; Some 11; Some 12]%positive)
    = Some race_final ∧
  quiescent race_final ∧
  head (results race_final) = Some (1%positive, Some 12%positive) ∧
  free_list (shared race_final) 1 = Some [11%positive] ∧
  lost race_final 10 ∧
  ∃ s', Pool.destroy 1 (shared race_final) = Ok tt s' ∧
        trace s' = trace (shared race_final) ++ [Delete 11 None] ∧
        is_Some (heap s' !! 10%positive).
Proof.
  split; [vm_compute; reflexivity|].
  split; [reflexivity|]. split; [reflexivity|]. split; [reflexivity|].
  split.
  - split; [by eexists|]. split.
    + simpl. by apply not_elem_of_singleton.
    + intros t l Hl. apply free_list_is_list in Hl. simpl in Hl.
      destruct (decide (t = 1%positive)) as [->|Hne].
      * rewrite lookup_singleton_eq in Hl.
        assert (l = [11%positive]) as ->.
        { eapply is_list_det; [done|].
          apply walk_sound with (fuel := 1). reflexivity. }
        apply not_elem_of_cons. split; [done|apply not_elem_of_nil].
      * rewrite lookup_singleton_ne in Hl by done.
        inversion Hl. apply not_elem_of_nil.
  - eexists. split; [vm_compute; reflexivity|].
    split; [reflexivity|]. by eexists.
Qed.

(** * Further properties of [PoolAllocator.h] *)

Lemma backref_Some h a t :
  backref h a = Some t → ∃ b, h !! a = Some b ∧ pool b = Some t.
Proof.
  unfold backref. destruct (h !! a) as [b|]; [|done]. simpl. eauto.
Qed.

(** Cells come back in the reverse order of their release: two cells of
    the same cache, freed one after the other by any threads, are returned
    by the owner's next two [allocate(1)] calls last-freed first.  The
    four calls make no call to the system allocator and leave every cache
    with the head it had. *)
Theorem freed_cells_return_in_lifo_order T t1 t2 owner a b s :
  backref (heap s) a = Some owner →
  backref (heap s) b = Some owner →
  a ≠ b →
  owner ∉ exited s →
  ∃ s', (deallocate T t1 (Some a) 1;;
         deallocate T t2 (Some b) 1;;
         p ← allocate T owner 1;
         q ← allocate T owner 1;
         mret (p, q)) s = Ok (Some b, Some a) s' ∧
        (∀ t, sentinel s' !! t = sentinel s !! t) ∧
        oracle s' = oracle s ∧ trace s' = trace s.
Proof.
  intros Ha Hb Hne Hlive.
  apply backref_Some in Ha as (ba & Hba & Hpa).
  apply backref_Some in Hb as (bb & Hbb & Hpb).
  eexists. split.
  - erewrite bind_Ok; [|by eapply deallocate_one].
    erewrite bind_Ok;
      [|eapply deallocate_one; simpl; [by rewrite lookup_insert_ne|done..]].
    erewrite bind_Ok;
      [|eapply allocate_hit; simpl; [done|apply lookup_insert_eq..|done]].
    erewrite bind_Ok; [reflexivity|].
    eapply allocate_hit; simpl; [done|..].
    + rewrite lookup_set_head_eq. apply lookup_insert_eq.
    + rewrite lookup_insert_ne by done. apply lookup_insert_eq.
    + done.
  - simpl. split; [|done]. intros t.
    destruct (decide (t = owner)) as [->|Hto].
    + by rewrite lookup_set_head_eq.
    + by rewrite !lookup_set_head_ne, !lookup_insert_ne.
Qed.

Lemma cell_handed_over_backref :
  backref (heap cell_handed_over) 12 = Some 1%positive.
Proof. reflexivity. Defined.

Lemma freed_cells_return_in_lifo_order_witness :
  ∃ s', (deallocate int_LP64 2 (Some 12%positive) 1;;
         deallocate int_LP64 1 (Some 10%positive) 1;;
         p ← allocate int_LP64 1 1;
         q ← allocate int_LP64 1 1;
         mret (p, q)) (set_sentinel {[ 1%positive := 11%positive ]} cell_handed_over)
        = Ok (Some 10%positive, Some 12%positive) s'.
Proof.
  destruct (freed_cells_return_in_lifo_order int_LP64 2 1 1 12 10
              (set_sentinel {[ 1%positive := 11%positive ]} cell_handed_over))
    as (s' & Hs' & _); [reflexivity|reflexivity|done|apply not_elem_of_empty|].
  by exists s'.
Defined.

Lemma allocate_hit_Ok T self s c p s' :
  self ∉ exited s →
  sentinel s !! self = Some c →
  allocate T self 1 s = Ok p s' →
  p = Some c.
Proof.
  intros Hlive Hhd. unfold_calls.
  destruct (heap s !! c) as [b|] eqn:Hb; [|by crunch].
  destruct (next b) as [nxt|] eqn:Hnx; [|by crunch].
  crunch. by intros [= <- _].
Qed.

(** Hand-off between threads: a cell that another thread frees goes back
    to the cache of the thread that allocated it.  The owner's next
    [allocate(1)] returns it; an [allocate(1)] by the thread that freed it
    does not. *)
Theorem freed_cell_is_reused_by_owner_only T owner other s a s1 :
  backref (heap s) a = Some owner →
  owner ∉ exited s →
  other ∉ exited s →
  other ≠ owner →
  sentinel s !! other ≠ Some a →
  deallocate T other (Some a) 1 s = Ok tt s1 →
  returned (allocate T owner 1 s1) = Some (Some a) ∧
  ∀ p s2, allocate T other 1 s1 = Ok p s2 → p ≠ Some a.
Proof.
  intros Hback Hlo Hlt Hne Hhd Hd.
  apply backref_Some in Hback as (b & Hb & Hown).
  rewrite (deallocate_one _ _ _ _ _ _ Hb Hown Hlo) in Hd. injection Hd as <-.
  split.
  - erewrite allocate_hit; simpl; [done|done|apply lookup_insert_eq..|done].
  - intros p s2 Hp.
    destruct (sentinel s !! other) as [c|] eqn:Hc.
    + apply allocate_hit_Ok with (c := c) in Hp; [|done|].
      * congruence.
      * simpl. by rewrite lookup_insert_ne.
    + apply allocate_miss_Ok in Hp as (a' & o & -> & _ & Hfresh); [|done|].
      * simpl in Hfresh. intros [= ->]. by rewrite lookup_insert_eq in Hfresh.
      * simpl. by rewrite lookup_insert_ne.
Qed.

Lemma freed_cell_is_reused_by_owner_only_witness :
  ∃ s1, deallocate int_LP64 2 (Some 12%positive) 1 cell_handed_over = Ok tt s1 ∧
        returned (allocate int_LP64 1 1 s1) = Some (Some 12%positive) ∧
        returned (allocate int_LP64 2 1 s1) = None.
Proof.
  eexists. split; [reflexivity|].
  split; [|reflexivity].
  refine (proj1 (freed_cell_is_reused_by_owner_only int_LP64 1 2
                   cell_handed_over 12 _ cell_handed_over_backref _ _ _ _ eq_refl)).
  - apply not_elem_of_empty.
  - apply not_elem_of_empty.
  - done.
  - done.
Defined.

(** The block of [allocate(0)] is never given back: [deallocate(p, 0)]
    returns at once, so the block obtained from the system allocator stays
    live and no release is recorded. *)
Theorem allocate_zero_block_is_not_released T self self' s p s1 :
  allocate T self 0 s = Ok p s1 →
  deallocate T self' p 0 s1 = Ok tt s1 ∧
  ∃ a, p = Some a ∧ heap s !! a = None ∧ is_Some (heap s1 !! a) ∧
       trace s1 = trace s ++ [New 0 a].
Proof.
  intros H. split; [unfold deallocate; by destruct p|].
  rewrite allocate_bulk in H by done.
  apply bind_inv_Ok in H as (a & s1' & Hnew & [= <- <-]).
  apply operator_new_Ok in Hnew as (o & Ho & Hfresh & ->).
  exists a. simpl. rewrite lookup_insert_eq. eauto.
Qed.

Lemma allocate_zero_block_is_not_released_witness :
  ∃ s1, allocate int_LP64 1 0 two_free_cells = Ok (Some 12%positive) s1 ∧
        deallocate int_LP64 1 (Some 12%positive) 0 s1 = Ok tt s1 ∧
        is_Some (heap s1 !! 12%positive).
Proof.
  eexists. split; [reflexivity|].
  split.
  - eapply proj1, (allocate_zero_block_is_not_released int_LP64 1 1 two_free_cells).
    reflexivity.
  - by eexists.
Defined.

(** No overflow check on the bulk path: when [n * sizeof(Node)] does not
    fit [size_t], [allocate(n)] asks the system allocator for the product
    modulo [2^64], and on success returns a block that is smaller than [n]
    cells. *)
Theorem allocate_bulk_request_wraps T self n s p s' :
  (0 < sizeof_Node T < size_max)%Z →
  (size_max ≤ n * sizeof_Node T)%Z →
  allocate T self n s = Ok p s' →
  ∃ a b, p = Some a ∧ heap s' !! a = Some b ∧
         bytes b = ((n * sizeof_Node T) mod size_max)%Z ∧
         (bytes b < n * sizeof_Node T)%Z ∧
         trace s' = trace s ++ [New (bytes b) a].
Proof.
  intros HT Hwrap H. rewrite allocate_bulk in H by (intros ->; lia).
  apply bind_inv_Ok in H as (a & s1' & Hnew & [= <- <-]).
  apply operator_new_Ok in Hnew as (o & Ho & Hfresh & ->).
  eexists a, _. simpl. rewrite lookup_insert_eq.
  split; [done|]. split; [done|]. simpl. split; [done|]. split; [|done].
  unfold size_mul.
  pose proof (Z.mod_pos_bound (n * sizeof_Node T) size_max). unfold size_max in *. lia.
Qed.

Lemma allocate_bulk_request_wraps_witness :
  ∃ s', allocate int_LP64 1 (2 ^ 60) two_free_cells = Ok (Some 12%positive) s' ∧
        (heap s' !! 12%positive ≫= λ b, Some (bytes b)) = Some 0%Z.
Proof.
  pose proof (allocate_bulk_request_wraps int_LP64 1 (2 ^ 60) two_free_cells
                (Some 12%positive)) as H.
  eexists. split; [reflexivity|].
  edestruct H as (a & b & [= <-] & Hb & Hbytes & _); [done|done|reflexivity|].
  rewrite Hb. simpl. by rewrite Hbytes.
Defined.

(** A failed allocation changes nothing but the system allocator: caches
    and cells are as before, and exactly one failed request is recorded.
    [allocate(1)] fails only when the caller's cache is empty. *)
Theorem allocate_bad_alloc_leaves_caches T self n s s' :
  allocate T self n s = bad_alloc s' →
  heap s' = heap s ∧ sentinel s' = sentinel s ∧ exited s' = exited s ∧
  (∃ sz, trace s' = trace s ++ [NewFailed sz]) ∧
  (n = 1%Z → sentinel s !! self = None).
Proof.
  intros H. destruct (decide (n = 1%Z)) as [->|Hn].
  - revert H. unfold_calls.
    destruct (decide (self ∈ exited s)) as [Hex|Hlive]; [by crunch|].
    destruct (sentinel s !! self) as [a|] eqn:Hhd.
    + destruct (heap s !! a) as [b|] eqn:Hb; [|by crunch].
      destruct (next b) as [nxt|] eqn:Hnx; by crunch.
    + destruct (oracle s) as [|[a|] o] eqn:Ho; crunch.
      * intros [= <-]. simpl. eauto 10.
      * destruct (heap s !! a) as [b|] eqn:Hb; crunch; [|done].
        intros [= <-]. simpl. eauto 10.
      * intros [= <-]. simpl. eauto 10.
  - rewrite allocate_bulk in H by done. unfold mbind, M_bind in H.
    destruct (operator_new _ s) as [a s1|s1| |] eqn:Hnew; try done.
    injection H as <-. apply operator_new_bad_alloc in Hnew as ->. simpl.
    repeat split; [by eexists|done].
Qed.

Lemma allocate_bad_alloc_leaves_caches_witness :
  ∃ s', allocate int_LP64 2 1 (set_sys [None] [] two_free_cells) = bad_alloc s' ∧
        heap s' = heap two_free_cells ∧ sentinel s' = sentinel two_free_cells.
Proof.
  eexists. split; [reflexivity|].
  edestruct (allocate_bad_alloc_leaves_caches int_LP64 2 1
               (set_sys [None] [] two_free_cells)) as (Hh & Hs & _);
    [reflexivity|].
  split; [exact Hh|exact Hs].
Defined.

(** A cell must not outlive the cache that produced it: once the owner's
    cache is destroyed, the cells it still held are released, and
    [deallocate(p, 1)] of a cell that was in use at that time has undefined
    behaviour, for it reads the destroyed cache through the cell's
    back-reference. *)
Theorem deallocate_after_owner_exit_is_undefined T self owner s a l :
  owner ∉ exited s →
  free_list s owner = Some l →
  a ∉ l →
  backref (heap s) a = Some owner →
  ∃ s', Pool.destroy owner s = Ok tt s' ∧
        trace s' = trace s ++ map (λ a, Delete a None) l ∧
        backref (heap s') a = Some owner ∧
        deallocate T self (Some a) 1 s' = undefined.
Proof.
  intros Hlive Hl Hnin Hback. apply free_list_is_list in Hl.
  eexists. split.
  { unfold Pool.destroy. by rewrite (bind_Ok _ _ _ _ _ (clear_spec _ _ _ Hlive Hl)). }
  simpl. split; [done|].
  assert (foldl (λ h a, delete a h) (heap s) l !! a = heap s !! a) as Hsame.
  { rewrite lookup_foldl_delete. by rewrite decide_False. }
  split; [unfold backref; by rewrite Hsame|].
  apply backref_Some in Hback as (b & Hb & Hown).
  unfold_calls. simpl. rewrite Hsame, Hb. simpl. rewrite Hown. simpl.
  rewrite decide_True; [done|]. apply elem_of_union_l. by apply elem_of_singleton.
Qed.

Lemma deallocate_after_owner_exit_is_undefined_witness :
  ∃ s', Pool.destroy 1 cell_handed_over = Ok tt s' ∧
        deallocate int_LP64 2 (Some 12%positive) 1 s' = undefined.
Proof.
  destruct (deallocate_after_owner_exit_is_undefined int_LP64 2 1
              cell_handed_over 12 [10; 11]%positive)
    as (s' & Hs' & _ & _ & Hd).
  - apply not_elem_of_empty.
  - reflexivity.
  - intros Hin. apply elem_of_cons in Hin as [?|Hin]; [done|].
    apply elem_of_cons in Hin as [?|Hin]; [done|]. by apply elem_of_nil in Hin.
  - reflexivity.
  - by exists s'.
Defined.

(** ** The back-reference of a cell *)

Lemma clear_loop_heap this : ∀ fuel p s s',
  Pool.clear_loop fuel this p s = Ok tt s' →
  ∀ a, heap s' !! a = None ∨ heap s' !! a = heap s !! a.
Proof.
  induction fuel as [|fuel IH]; intros p s s'.
  - destruct p; [done|]. intros [= <-]. by right.
  - destruct p as [a0|]; [|intros [= <-]; by right]. simpl.
    unfold read_next, get_block, operator_delete, Pool.store, fail_undefined,
      mbind, M_bind, mret, M_ret.
    destruct (heap s !! a0) as [b|] eqn:Hb; [|done].
    destruct (next b) as [nxt|]; [|done].
    destruct (decide (this ∈ exited s)); [done|]. simpl. rewrite Hb.
    intros H a. destruct (IH _ _ _ H a) as [Hn|Hs]; [by left|].
    simpl in Hs. rewrite Hs.
    destruct (decide (a = a0)) as [->|Hne].
    + left. apply lookup_delete_eq.
    + right. by apply lookup_delete_ne.
Qed.

Lemma allocate_keeps_blocks T self n s p s' :
  allocate T self n s = Ok p s' ∨ allocate T self n s = bad_alloc s' →
  ∀ a, is_Some (heap s !! a) → heap s' !! a = heap s !! a.
Proof.
  intros H a [blk Ha]. revert H. unfold_calls.
  destruct (decide (n = 1%Z)) as [->|Hn].
  - destruct (decide (self ∈ exited s)) as [Hex|Hlive]; [crunch; by intros [|]|].
    destruct (sentinel s !! self) as [a0|] eqn:Hhd.
    + destruct (heap s !! a0) as [b|] eqn:Hb; [|crunch; by intros [|]].
      destruct (next b) as [nxt|] eqn:Hnx; crunch; [|by intros [|]].
      by intros [[= _ <-]|].
    + destruct (oracle s) as [|[a0|] o] eqn:Ho; crunch.
      * by intros [|[= <-]].
      * destruct (heap s !! a0) as [b|] eqn:Hb; crunch.
        -- by intros [|[= <-]].
        -- intros [[= _ <-]|]; [|done]. simpl.
           rewrite ?insert_insert_eq, lookup_insert_ne by congruence. done.
      * by intros [|[= <-]].
  - destruct (oracle s) as [|[a0|] o] eqn:Ho; simpl.
    + by intros [|[= <-]].
    + destruct (heap s !! a0) as [b|] eqn:Hb; simpl.
      * by intros [|[= <-]].
      * intros [[= _ <-]|]; [|done]. simpl.
        rewrite lookup_insert_ne by congruence. done.
    + by intros [|[= <-]].
Qed.

Lemma exec_backref_kept T c s ow s' ow' a t :
  exec T c (s, ow) = Some (s', ow') →
  backref (heap s) a = Some t →
  heap s' !! a = None ∨ backref (heap s') a = Some t.
Proof.
  intros Hexec Hback. revert Hexec.
  destruct c as [self n|self a0 n|self|self]; unfold exec;
    (destruct (decide (self ∈ exited s)) as [|Hlive]; [done|]).
  - pose proof (allocate_keeps_blocks T self n s) as Hkeep.
    assert (is_Some (heap s !! a)) as Ha.
    { apply backref_Some in Hback as (b & -> & _). eauto. }
    destruct (allocate T self n s) as [[a1|] s1|s1| |]; [| | |done..];
      intros [= <- <-]; right; unfold backref.
    + by rewrite (Hkeep (Some a1) s1 (or_introl eq_refl) a Ha).
    + by rewrite (Hkeep None s1 (or_introl eq_refl) a Ha).
    + by rewrite (Hkeep None s1 (or_intror eq_refl) a Ha).
  - destruct (decide (ow !! a0 = Some n)); [|done].
    destruct (decide (n = 0%Z)) as [->|H0].
    { unfold deallocate. rewrite decide_True by done. intros [= <- <-]. by right. }
    destruct (decide (n = 1%Z)) as [->|H1].
    + destruct (deallocate T self (Some a0) 1 s) as [[] s1| | |] eqn:Hd; try done.
      destruct (deallocate_one_Ok _ _ _ _ _ Hd) as (b & owner & Hb & Hown & Hlo).
      rewrite (deallocate_one _ _ _ _ _ _ Hb Hown Hlo) in Hd.
      injection Hd as <-. intros [= <- <-]. right. simpl.
      destruct (decide (a = a0)) as [->|Hne].
      * unfold backref in *. rewrite lookup_insert_eq. simpl.
        rewrite Hb in Hback. simpl in Hback. congruence.
      * unfold backref in *. by rewrite lookup_insert_ne.
    + rewrite deallocate_bulk by done. unfold operator_delete.
      destruct (heap s !! a0) as [b|] eqn:Hb; [|done].
      intros [= <- <-]. simpl. destruct (decide (a = a0)) as [->|Hne].
      * left. apply lookup_delete_eq.
      * right. unfold backref. by rewrite lookup_delete_ne.
  - unfold clear, Pool.clear, Pool.load, mbind, M_bind.
    rewrite decide_False by done.
    destruct (Pool.clear_loop _ self _ s) as [[] s1| | |] eqn:Hc; try done.
    intros [= <- <-].
    destruct (clear_loop_heap _ _ _ _ _ Hc a) as [?|Hs]; [by left|].
    right. unfold backref. by rewrite Hs.
  - unfold Pool.destroy, Pool.clear, Pool.load, Pool.end_of_lifetime, mbind, M_bind.
    rewrite decide_False by done.
    destruct (Pool.clear_loop _ self _ s) as [[] s1| | |] eqn:Hc; try done.
    intros [= <- <-]. simpl.
    destruct (clear_loop_heap _ _ _ _ _ Hc a) as [?|Hs]; [by left|].
    right. unfold backref. by rewrite Hs.
Qed.

(** The back-reference of a cell is fixed for the cell's lifetime: no call
    a program makes changes the back-reference of a block; a call either
    leaves it as it is or releases the block. *)
Theorem exec_keeps_back_references T c s ow s' ow' a t :
  exec T c (s, ow) = Some (s', ow') →
  backref (heap s) a = Some t →
  heap s' !! a = None ∨ backref (heap s') a = Some t.
Proof. apply exec_backref_kept. Qed.

Lemma exec_keeps_back_references_witness :
  ∃ s' ow',
    exec int_LP64 (Call_deallocate 2 12 1) (cell_handed_over, {[ 12%positive := 1%Z ]})
      = Some (s', ow') ∧
    backref (heap s') 12 = Some 1%positive.
Proof.
  eexists _, _. split; [reflexivity|].
  edestruct (exec_keeps_back_references int_LP64 (Call_deallocate 2 12 1)
               cell_handed_over {[ 12%positive := 1%Z ]}) as [Hgone|Hkept];
    [reflexivity|exact cell_handed_over_backref| |exact Hkept].
  exfalso. revert Hgone. by vm_compute.
Defined.

(** ** Calls that overlap *)

Lemma is_list_app_inv h p l1 a l2 :
  is_list h p (l1 ++ a :: l2) → is_list h (Some a) (a :: l2).
Proof.
  revert p. induction l1 as [|a1 l1 IH]; intros p H; simpl in H.
  - by inversion H; subst.
  - inversion H; subst. eauto.
Qed.

(** [clear()] is not safe against a [deallocate(p, 1)] from another
    thread.  [clear()] loads the head and then stores every link it reads
    without looking at the sentinel again: a cell that is pushed after the
    load is overwritten by the first store.  When [clear()] returns the
    cache is empty and the cells that were in the list at the load are
    released; the pushed cell is live, in no cache, and its link points to
    a released block. *)
Theorem clear_overtaken_by_push_drops_cell T self other s a l c :
  self ∉ exited s →
  free_list s self = Some (a :: l) →
  backref (heap s) c = Some self →
  c ∉ a :: l →
  ∃ s', (p ← Pool.load self;
         deallocate T other (Some c) 1;;
         Pool.clear_loop (S (size (heap s))) self p) s = Ok tt s' ∧
        sentinel s' !! self = None ∧
        backref (heap s') c = Some self ∧
        (heap s' !! c ≫= next) = Some (Some a) ∧
        heap s' !! a = None ∧
        trace s' = trace s ++ map (λ a, Delete a None) (a :: l).
Proof.
  intros Hlive Hl Hback Hnin. apply free_list_is_list in Hl.
  apply backref_Some in Hback as (b & Hb & Hown).
  assert (sentinel s !! self = Some a) as Hhd by by inversion Hl.
  rewrite Hhd in Hl.
  set (s1 := {| heap := <[c := {| bytes := bytes b;
                                  next := Some (sentinel s !! self);
                                  pool := Some self |}]> (heap s);
                sentinel := <[self := c]> (sentinel s); exited := exited s;
                oracle := oracle s; trace := trace s |}).
  assert (is_list (heap s1) (Some a) (a :: l)) as Hl1 by by apply is_list_insert.
  assert (length (a :: l) ≤ S (size (heap s))) as Hfuel.
  { pose proof (is_list_length _ _ _ Hl). lia. }
  pose proof (clear_loop_spec self (a :: l) _ s1 (Some a) Hlive Hl1 Hfuel) as Hclear.
  remember (a :: l) as al eqn:Hal.
  eexists. split.
  { rewrite (bind_Ok _ _ _ _ _ (load_eq _ _ Hlive)), Hhd.
    rewrite (bind_Ok _ _ _ _ _ (deallocate_one T other _ _ _ _ Hb Hown Hlive)).
    exact Hclear. }
  cbn [sentinel heap trace s1].
  split; [subst al; apply lookup_delete_eq|].
  unfold backref. rewrite !lookup_foldl_delete.
  rewrite decide_False by done. rewrite lookup_insert_eq. simpl. rewrite Hhd.
  split; [done|]. split; [done|]. split; [|done].
  rewrite decide_True; [done|]. subst al. by left.
Qed.

Lemma clear_overtaken_by_push_drops_cell_witness :
  ∃ s', (p ← Pool.load 1;
         deallocate int_LP64 2 (Some 12%positive) 1;;
         Pool.clear_loop (S (size (heap cell_handed_over))) 1 p) cell_handed_over
        = Ok tt s' ∧
        sentinel s' !! 1%positive = None ∧
        is_Some (heap s' !! 12%positive).
Proof.
  destruct (clear_overtaken_by_push_drops_cell int_LP64 1 2 cell_handed_over
              10 [11%positive] 12)
    as (s' & Hs' & Hhd & Hback & _).
  - apply not_elem_of_empty.
  - reflexivity.
  - reflexivity.
  - intros Hin. apply elem_of_cons in Hin as [?|Hin]; [done|].
    apply elem_of_cons in Hin as [?|Hin]; [done|]. by apply elem_of_nil in Hin.
  - exists s'. split; [done|]. split; [done|].
    apply backref_Some in Hback as (b & -> & _). by eexists.
Defined.

(** One attempt of the push loop of [deallocate(p, 1)], in any state that
    other threads may have left: the cell's link is compared with the head
    of the owner's cache.  If they agree the cell becomes the head, in
    front of the list as it is now.  If not, nothing is linked, the cell's
    link is refreshed with the current head, and the loop goes on.  Neither
    way is a cell of the list dropped. *)
Theorem push_attempt_keeps_list T self owner s a e l :
  owner ∉ exited s →
  backref (heap s) a = Some owner →
  (heap s !! a ≫= next) = Some e →
  free_list s owner = Some l →
  a ∉ l →
  ∃ f s', step T self (Deallocate_cas a) s = Ok f s' ∧
          trace s' = trace s ∧
          (∀ t, t ≠ owner → sentinel s' !! t = sentinel s !! t) ∧
          if decide (e = sentinel s !! owner)
          then f = Deallocate_return ∧ free_list s' owner = Some (a :: l)
          else f = Deallocate_cas a ∧
               (heap s' !! a ≫= next) = Some (sentinel s !! owner) ∧
               free_list s' owner = Some l.
Proof.
  intros Hlive Hback He Hl Hnin. apply free_list_is_list in Hl.
  apply backref_Some in Hback as (b & Hb & Hown).
  rewrite Hb in He. simpl in He.
  destruct (decide (e = sentinel s !! owner)) as [->|Hne].
  - eexists _, _. split.
    { unfold_calls. crunch. reflexivity. }
    simpl. split; [done|]. split.
    { intros t Hto. by apply lookup_insert_ne. }
    split; [done|]. apply free_list_is_list. simpl.
    rewrite lookup_insert_eq. by econstructor.
  - eexists _, _. split.
    { unfold_calls. crunch. rewrite ?decide_False by congruence. crunch.
      reflexivity. }
    simpl. split; [done|]. split; [done|]. split; [done|].
    rewrite lookup_insert_eq. split; [done|].
    apply free_list_is_list. simpl. by apply is_list_insert.
Qed.

Lemma push_attempt_keeps_list_witness :
  ∃ f s', step int_LP64 2 (Deallocate_cas 12) 
            (set_heap (<[12%positive := {| bytes := 16; next := Some None;
                                            pool := Some 1%positive |}]>
                         (heap cell_handed_over)) cell_handed_over) = Ok f s' ∧
          f = Deallocate_cas 12 ∧
          free_list s' 1 = Some [10; 11]%positive.
Proof.
  edestruct (push_attempt_keeps_list int_LP64 2 1
               (set_heap (<[12%positive := {| bytes := 16; next := Some None;
                                               pool := Some 1%positive |}]>
                            (heap cell_handed_over)) cell_handed_over)
               12 None [10; 11]%positive)
    as (f & s' & Hstep & _ & _ & Hcase).
  - apply not_elem_of_empty.
  - reflexivity.
  - reflexivity.
  - reflexivity.
  - intros Hin. apply elem_of_cons in Hin as [?|Hin]; [done|].
    apply elem_of_cons in Hin as [?|Hin]; [done|]. by apply elem_of_nil in Hin.
  - exists f, s'. split; [exact Hstep|].
    rewrite decide_False in Hcase by done.
    destruct Hcase as (Hf & _ & Hfl). by split.
Defined.

(** The pop loop of [allocate(1)] after pushes have overtaken it.  The
    call has loaded the head [x] and read its link [d]; meanwhile the
    cells [y :: ys] were pushed in front of [x].  The first attempt fails
    and takes the new head [y] for [expected]; the second succeeds and
    installs [d], which was not read again.  The call returns [y], and the
    cache is left with the cells after [x]: the cells [ys] and [x] itself
    are in no cache any more although nobody was given them. *)
Theorem overtaken_pop_drops_cells T self s x d y ys l :
  self ∉ exited s →
  (heap s !! x ≫= next) = Some d →
  free_list s self = Some (y :: ys ++ x :: l) →
  ∃ s', run_frame 2 T self (Allocate_cas (Some x) d) s = Ok (Some y) s' ∧
        free_list s' self = Some l ∧
        heap s' = heap s ∧ trace s' = trace s ∧
        (∀ c, c ∈ ys ++ [x] → is_Some (heap s' !! c) ∧ c ≠ y ∧ c ∉ l).
Proof.
  intros Hlive Hd Hl. apply free_list_is_list in Hl.
  pose proof (is_list_NoDup _ _ _ Hl) as Hnd.
  assert (sentinel s !! self = Some y) as Hhd by by inversion Hl.
  assert (y ≠ x) as Hyx.
  { apply NoDup_cons in Hnd as [Hy _]. intros ->. apply Hy.
    apply elem_of_app. right. by left. }
  pose proof (is_list_app_inv _ _ (y :: ys) _ _ Hl) as Hx.
  inversion Hx as [|? b nxt ? Hb Hnx Hl']; subst.
  rewrite Hb in Hd. simpl in Hd. assert (nxt = d) as -> by congruence.
  eexists. split.
  { unfold_calls. crunch. rewrite ?decide_False by congruence. crunch.
    reflexivity. }
  simpl. split.
  { apply free_list_is_list. simpl. by rewrite lookup_set_head_eq. }
  split; [done|]. split; [done|].
  intros c Hc. split; [|split].
  - eapply is_list_live; [exact Hl|]. right.
    apply elem_of_app in Hc as [Hc|Hc]; apply elem_of_app; [by left|].
    right. apply elem_of_cons in Hc as [->|Hc]; [by left|by apply elem_of_nil in Hc].
  - apply NoDup_cons in Hnd as [Hy _]. intros ->. apply Hy.
    apply elem_of_app in Hc as [Hc|Hc]; apply elem_of_app; [by left|].
    right. apply elem_of_cons in Hc as [->|Hc]; [by left|by apply elem_of_nil in Hc].
  - apply NoDup_cons in Hnd as [_ Hnd]. apply NoDup_app in Hnd as (_ & Hdis & Hnd2).
    apply NoDup_cons in Hnd2 as [Hxl _].
    apply elem_of_app in Hc as [Hc|Hc].
    + intros Hcl. apply (Hdis c Hc). by right.
    + apply elem_of_cons in Hc as [->|Hc]; [done|by apply elem_of_nil in Hc].
Qed.

Lemma overtaken_pop_drops_cells_witness :
  ∃ s', run_frame 2 int_LP64 1 (Allocate_cas (Some 10%positive) (Some 11%positive))
          (set_sentinel {[ 1%positive := 12%positive ]} (shared race_final))
        = Ok (Some 12%positive) s' ∧
        free_list s' 1 = Some [11%positive].
Proof.
  edestruct (overtaken_pop_drops_cells int_LP64 1
               (set_sentinel {[ 1%positive := 12%positive ]} (shared race_final))
               10 (Some 11%positive) 12 [] [11%positive])
    as (s' & Hrun & Hfl & _).
  - apply not_elem_of_empty.
  - reflexivity.
  - reflexivity.
  - exists s'. by split.
Defined.

(** ** States that a program reaches *)

Lemma reachable_exec_all T cs : ∀ s ow s' ow',
  reachable T s ow →
  exec_all T cs (s, ow) = Some (s', ow') →
  reachable T s' ow'.
Proof.
  induction cs as [|c cs IH]; intros s ow s' ow' Hr.
  - by intros [= <- <-].
  - cbn [exec_all]. destruct (exec T c (s, ow)) as [[s1 ow1]|] eqn:He; [|done].
    apply IH. by eapply reachable_exec.
Qed.

(** The shape of the caches in every state that a program reaches by calls
    that keep to the protocol: every cache is a finite list without
    repetition that ends at [nullptr]; its cells carry the cache as
    back-reference and are not held by the program; two caches share no
    cell. *)
Theorem reachable_caches_are_disjoint_lists T s ow :
  reachable T s ow →
  (∀ t, ∃ l, free_list s t = Some l ∧ NoDup l ∧
             ∀ a, a ∈ l → backref (heap s) a = Some t ∧ ow !! a = None) ∧
  (∀ t1 t2 l1 l2 a,
     t1 ≠ t2 → free_list s t1 = Some l1 → free_list s t2 = Some l2 →
     a ∈ l1 → a ∉ l2).
Proof.
  intros Hr. pose proof (reachable_wf _ _ _ Hr) as Hwf. split.
  - intros t. destruct (Hwf t) as (l & Hl & Hall). exists l.
    split; [by apply free_list_is_list|].
    split; [by eapply is_list_NoDup|].
    by apply Forall_forall.
  - intros t1 t2 l1 l2 a Hne H1 H2 Hin1 Hin2.
    apply free_list_is_list in H1, H2.
    destruct (Hwf t1) as (l1' & Hl1 & Hall1).
    destruct (Hwf t2) as (l2' & Hl2 & Hall2).
    pose proof (is_list_det _ _ _ _ H1 Hl1) as ->.
    pose proof (is_list_det _ _ _ _ H2 Hl2) as ->.
    rewrite Forall_forall in Hall1, Hall2.
    destruct (Hall1 _ Hin1) as [? _]. destruct (Hall2 _ Hin2) as [? _].
    congruence.
Qed.

Lemma three_calls_reachable :
  ∃ s ow, exec_all int_LP64 three_calls
            (initial [Some 10; Some 11]%positive, ∅) = Some (s, ow) ∧
          reachable int_LP64 s ow.
Proof.
  destruct (exec_all int_LP64 three_calls
              (initial [Some 10; Some 11]%positive, ∅)) as [[s ow]|] eqn:E;
    [|vm_compute in E; discriminate].
  exists s, ow. split; [reflexivity|].
  eapply reachable_exec_all; [apply reachable_initial|exact E].
Defined.

Lemma reachable_caches_are_disjoint_lists_witness :
  ∃ s ow, exec_all int_LP64 three_calls
            (initial [Some 10; Some 11]%positive, ∅) = Some (s, ow) ∧
          ∃ l, free_list s 1 = Some l ∧ NoDup l.
Proof.
  destruct three_calls_reachable as (s & ow & Hexec & Hr).
  exists s, ow. split; [exact Hexec|].
  destruct (reachable_caches_are_disjoint_lists int_LP64 s ow Hr) as [Hshape _].
  destruct (Hshape 1%positive) as (l & Hl & Hnd & _).
  exists l. by split.
Defined.


Lemma inv2_initial o : inv2 (initial o) ∅.
Proof.
  split; [apply wf_initial|]. split.
  - intros a t. unfold backref. simpl. by rewrite lookup_empty.
  - intros a n. by rewrite lookup_empty.
Qed.

(** A cell of a cache is not held by the program. *)
Lemma wf_list_not_owned s ow t l a n :
  wf s ow → is_list (heap s) (sentinel s !! t) l → ow !! a = Some n → a ∉ l.
Proof.
  intros Hwf Hl How Hin. destruct (Hwf t) as (l' & Hl' & Hall).
  pose proof (is_list_det _ _ _ _ Hl Hl') as ->.
  rewrite Forall_forall in Hall. destruct (Hall _ Hin) as [_ ?]. congruence.
Qed.

Lemma wf_list_backref s ow t l a :
  wf s ow → is_list (heap s) (sentinel s !! t) l → a ∈ l →
  backref (heap s) a = Some t.
Proof.
  intros Hwf Hl Hin. destruct (Hwf t) as (l' & Hl' & Hall).
  pose proof (is_list_det _ _ _ _ Hl Hl') as ->.
  rewrite Forall_forall in Hall. by destruct (Hall _ Hin) as [? _].
Qed.

(** A fresh block, as a cell of thread [self] ([n = 1]) or as a block of
    the bulk path. *)
Lemma inv2_fresh s ow a b n o tr :
  inv2 s ow →
  heap s !! a = None →
  (n = 1%Z → is_Some (pool b)) →
  (n ≠ 1%Z → pool b = None) →
  inv2 {| heap := <[a := b]> (heap s); sentinel := sentinel s;
          exited := exited s; oracle := o; trace := tr |} (<[a := n]> ow).
Proof.
  intros (Hwf & Hacc & Hown) Hfresh H1 Hn1.
  split; [by apply wf_fresh|]. split.
  - intros a' t. simpl. destruct (decide (a' = a)) as [->|Hne].
    + unfold backref. rewrite !lookup_insert_eq. simpl. intros Hp.
      left. f_equal. destruct (decide (n = 1%Z)) as [|Hn]; [done|].
      rewrite Hn1 in Hp; done.
    + unfold backref. rewrite !lookup_insert_ne by done. intros Hback.
      destruct (Hacc a' t Hback) as [?|(l & Hl & Hin)]; [by left|right].
      exists l. split; [|done]. apply is_list_insert; [done|].
      intros Hal. destruct (is_list_live _ _ _ _ Hl Hal) as [? ?]. congruence.
  - intros a' n'. simpl. destruct (decide (a' = a)) as [->|Hne].
    + rewrite !lookup_insert_eq. intros [= <-]. split; [by eexists|].
      unfold backref. rewrite lookup_insert_eq. simpl. done.
    + unfold backref. rewrite !lookup_insert_ne by done. apply Hown.
Qed.

Lemma inv2_allocate T self n s ow s' ow' :
  inv2 s ow →
  exec T (Call_allocate self n) (s, ow) = Some (s', ow') →
  inv2 s' ow'.
Proof.
  intros Hinv Hexec.
  assert (wf s' ow') as Hwf' by (eapply exec_wf; [apply Hinv|exact Hexec]).
  revert Hexec. destruct Hinv as (Hwf & Hacc & Hown). unfold exec.
  destruct (decide (self ∈ exited s)) as [|Hlive]; [done|].
  destruct (decide (n = 1%Z)) as [->|Hn].
  - destruct (sentinel s !! self) as [a|] eqn:Hhd.
    + destruct (Hwf self) as (l & Hl & Hall). rewrite Hhd in Hl.
      inversion Hl as [|? b nxt l' Hb Hnx Hl']; subst.
      rewrite (allocate_hit _ _ _ _ _ _ Hlive Hhd Hb Hnx).
      intros [= <- <-]. split; [done|].
      pose proof (is_list_head_fresh _ _ _ Hl) as Hfresh. split.
      * intros a' t Hback. simpl in *.
        destruct (decide (a' = a)) as [->|Hne]; [left; apply lookup_insert_eq|].
        rewrite lookup_insert_ne by done.
        destruct (Hacc a' t Hback) as [?|(l0 & Hl0 & Hin)]; [by left|right].
        destruct (decide (t = self)) as [->|Hts].
        -- rewrite Hhd in Hl0. pose proof (is_list_det _ _ _ _ Hl0 Hl) as ->.
           exists l'. rewrite lookup_set_head_eq. split; [done|].
           apply elem_of_cons in Hin as [?|?]; done.
        -- exists l0. by rewrite lookup_set_head_ne.
      * intros a' n'. simpl. destruct (decide (a' = a)) as [->|Hne].
        -- rewrite lookup_insert_eq. intros [= <-]. split; [by eexists|done].
        -- rewrite lookup_insert_ne by done. apply Hown.
    + destruct (oracle s) as [|[a|] o] eqn:Ho.
      * rewrite allocate_miss_bad_alloc; [|done..|by rewrite Ho].
        by intros [= <- <-].
      * destruct (heap s !! a) as [b|] eqn:Hb.
        -- rewrite allocate_miss_bad_alloc; [|done..|].
           ++ by intros [= <- <-].
           ++ intros a' o'. rewrite Ho. intros [= <- <-]. eauto.
        -- rewrite (allocate_miss _ _ _ a o) by done.
           intros [= <- <-]. apply inv2_fresh; [done|done|by eexists|done].
      * rewrite allocate_miss_bad_alloc; [|done..|by rewrite Ho].
        by intros [= <- <-].
  - rewrite allocate_bulk by done. unfold mbind, M_bind.
    destruct (operator_new _ s) as [a s1|s1| |] eqn:Hnew; [| |done..].
    + apply operator_new_Ok in Hnew as (o & Ho & Hfresh & ->).
      intros [= <- <-]. by apply inv2_fresh.
    + apply operator_new_bad_alloc in Hnew as ->. by intros [= <- <-].
Qed.

Lemma inv2_deallocate T self a n s ow s' ow' :
  inv2 s ow →
  exec T (Call_deallocate self a n) (s, ow) = Some (s', ow') →
  inv2 s' ow'.
Proof.
  intros Hinv Hexec.
  assert (wf s' ow') as Hwf' by (eapply exec_wf; [apply Hinv|exact Hexec]).
  revert Hexec. destruct Hinv as (Hwf & Hacc & Hown). unfold exec.
  destruct (decide (self ∈ exited s)) as [|Hlive]; [done|].
  destruct (decide (ow !! a = Some n)) as [How|]; [|done].
  destruct (Hown _ _ How) as [Halive Hbulk].
  destruct (decide (n = 0%Z)) as [->|H0].
  { unfold deallocate. rewrite decide_True by done.
    intros [= <- <-]. split; [done|]. split.
    - intros a' t Hback. destruct (decide (a' = a)) as [->|Hne].
      + rewrite Hbulk in Hback; done.
      + rewrite lookup_delete_ne by done. by apply Hacc.
    - intros a' n'. destruct (decide (a' = a)) as [->|Hne].
      + by rewrite lookup_delete_eq.
      + rewrite lookup_delete_ne by done. apply Hown. }
  destruct (decide (n = 1%Z)) as [->|H1].
  - destruct (deallocate T self (Some a) 1 s) as [[] s1| | |] eqn:Hd; try done.
    destruct (deallocate_one_Ok _ _ _ _ _ Hd) as (b & owner & Hb & Hpool & Hlo).
    rewrite (deallocate_one _ _ _ _ _ _ Hb Hpool Hlo) in Hd.
    injection Hd as <-. intros [= <- <-]. split; [done|]. split.
    + intros a' t. simpl. destruct (decide (a' = a)) as [->|Hne].
      * unfold backref. rewrite lookup_insert_eq. simpl. intros [= <-]. right.
        destruct (Hwf' owner) as (l & Hl & _). simpl in Hl.
        rewrite lookup_insert_eq in Hl. exists l.
        split; [by rewrite lookup_insert_eq|].
        inversion Hl; subst. by left.
      * unfold backref. rewrite lookup_insert_ne by done. intros Hback.
        rewrite lookup_delete_ne by done.
        destruct (Hacc a' t Hback) as [?|(l & Hl & Hin)]; [by left|right].
        pose proof (wf_list_not_owned _ _ _ _ _ _ Hwf Hl How) as Hal.
        destruct (decide (t = owner)) as [->|Hto].
        -- exists (a :: l). rewrite lookup_insert_eq. split; [|by right].
           econstructor; [apply lookup_insert_eq|done|by apply is_list_insert].
        -- exists l. rewrite lookup_insert_ne by done.
           split; [by apply is_list_insert|done].
    + intros a' n'. simpl. destruct (decide (a' = a)) as [->|Hne].
      * by rewrite lookup_delete_eq.
      * unfold backref. rewrite lookup_delete_ne, lookup_insert_ne by done.
        apply Hown.
  - rewrite deallocate_bulk by done. unfold operator_delete.
    destruct (heap s !! a) as [b|] eqn:Hb; [|done].
    intros [= <- <-]. split; [done|]. split.
    + intros a' t. simpl. destruct (decide (a' = a)) as [->|Hne].
      * unfold backref. by rewrite lookup_delete_eq.
      * unfold backref. rewrite !lookup_delete_ne by done. intros Hback.
        destruct (Hacc a' t Hback) as [?|(l & Hl & Hin)]; [by left|right].
        exists l. split; [|done]. apply is_list_delete; [done|].
        exact (wf_list_not_owned _ _ _ _ _ _ Hwf Hl How).
    + intros a' n'. simpl. destruct (decide (a' = a)) as [->|Hne].
      * by rewrite lookup_delete_eq.
      * unfold backref. rewrite !lookup_delete_ne by done. apply Hown.
Qed.

Lemma inv2_clear self s ow l e :
  inv2 s ow →
  is_list (heap s) (sentinel s !! self) l →
  wf {| heap := foldl (λ h a, delete a h) (heap s) l;
        sentinel := delete self (sentinel s);
        exited := e; oracle := oracle s;
        trace := trace s ++ map (λ a, Delete a None) l |} ow →
  inv2 {| heap := foldl (λ h a, delete a h) (heap s) l;
          sentinel := delete self (sentinel s);
          exited := e; oracle := oracle s;
          trace := trace s ++ map (λ a, Delete a None) l |} ow.
Proof.
  intros (Hwf & Hacc & Hown) Hl Hwf'. split; [done|]. split.
  - intros a t. unfold backref. simpl. rewrite lookup_foldl_delete.
    destruct (decide (a ∈ l)) as [|Hal]; [done|]. intros Hback.
    destruct (Hacc a t Hback) as [?|(l0 & Hl0 & Hin)]; [by left|right].
    destruct (decide (t = self)) as [->|Hts].
    { pose proof (is_list_det _ _ _ _ Hl0 Hl) as ->. done. }
    exists l0. rewrite lookup_delete_ne by done. split; [|done].
    eapply is_list_agree; [|done]. intros x Hx.
    rewrite lookup_foldl_delete. destruct (decide (x ∈ l)) as [Hxl|]; [|done].
    pose proof (wf_list_backref _ _ _ _ _ Hwf Hl0 Hx).
    pose proof (wf_list_backref _ _ _ _ _ Hwf Hl Hxl). congruence.
  - intros a n How. destruct (Hown _ _ How) as [Halive Hbulk].
    pose proof (wf_list_not_owned _ _ _ _ _ _ Hwf Hl How) as Hal.
    unfold backref. simpl. rewrite lookup_foldl_delete, decide_False by done.
    done.
Qed.

Lemma exec_inv2 T c s ow s' ow' :
  inv2 s ow → exec T c (s, ow) = Some (s', ow') → inv2 s' ow'.
Proof.
  intros Hinv Hexec. destruct c as [self n|self a n|self|self].
  - by eapply inv2_allocate.
  - by eapply inv2_deallocate.
  - assert (wf s' ow') as Hwf' by (eapply exec_wf; [apply Hinv|exact Hexec]).
    revert Hexec Hwf'. unfold exec.
    destruct (decide (self ∈ exited s)) as [|Hlive]; [done|].
    destruct (proj1 Hinv self) as (l & Hl & _).
    unfold clear. rewrite (clear_spec _ _ _ Hlive Hl).
    intros [= <- <-]. by apply inv2_clear.
  - assert (wf s' ow') as Hwf' by (eapply exec_wf; [apply Hinv|exact Hexec]).
    revert Hexec Hwf'. unfold exec.
    destruct (decide (self ∈ exited s)) as [|Hlive]; [done|].
    destruct (proj1 Hinv self) as (l & Hl & _).
    unfold Pool.destroy. rewrite (bind_Ok _ _ _ _ _ (clear_spec _ _ _ Hlive Hl)).
    intros [= <- <-]. by apply (inv2_clear self s ow l).
Qed.

Lemma reachable_inv2 T s ow : reachable T s ow → inv2 s ow.
Proof.
  induction 1 as [o|c s ow s' ow' _ IH Hexec]; [apply inv2_initial|].
  by eapply exec_inv2.
Qed.

(** Used by one thread at a time, the allocator loses no cell: in every
    state that a program reaches by calls that keep to the protocol, each
    cell is either held by the program or in the cache named by its
    back-reference; and each block the program holds is live. *)
Theorem reachable_cells_are_accounted T s ow :
  reachable T s ow →
  accounted s ow ∧ owned_ok s ow.
Proof.
  intros Hr. destruct (reachable_inv2 _ _ _ Hr) as (_ & Hacc & Hown).
  split; [|done]. intros a t Hback.
  destruct (Hacc a t Hback) as [?|(l & Hl & Hin)]; [by left|right].
  exists l. split; [|done]. by apply free_list_is_list.
Qed.

Lemma reachable_cells_are_accounted_witness :
  ∃ s ow, exec_all int_LP64 three_calls
            (initial [Some 10; Some 11]%positive, ∅) = Some (s, ow) ∧
          accounted s ow.
Proof.
  destruct three_calls_reachable as (s & ow & Hexec & Hr).
  exists s, ow. split; [exact Hexec|].
  exact (proj1 (reachable_cells_are_accounted int_LP64 s ow Hr)).
Defined.

(** ** Calls that keep to the protocol are defined *)

(** What a call adds to the blocks of the program. *)
Lemma exec_owned T c s ow s' ow' a n :
  exec T c (s, ow) = Some (s', ow') →
  ow' !! a = Some n →
  ow !! a = Some n ∨
  ∃ self, (self ∉ exited s) ∧ allocate T self n s = Ok (Some a) s'.
Proof.
  destruct c as [self m|self a0 m|self|self]; unfold exec;
    (destruct (decide (self ∈ exited s)) as [|Hlive]; [done|]).
  - destruct (allocate T self m s) as [[a1|] s1|s1| |] eqn:Ha; try done;
      intros [= <- <-]; [|by left..].
    destruct (decide (a = a1)) as [->|Hne].
    + rewrite lookup_insert_eq. intros [= <-]. right. by exists self.
    + rewrite lookup_insert_ne by done. by left.
  - destruct (decide (ow !! a0 = Some m)); [|done].
    destruct (deallocate T self (Some a0) m s) as [[] s1| | |]; try done.
    intros [= <- <-]. destruct (decide (a = a0)) as [->|Hne].
    + by rewrite lookup_delete_eq.
    + rewrite lookup_delete_ne by done. by left.
  - destruct (clear T self s) as [[] s1| | |]; try done.
    intros [= <- <-]. by left.
  - destruct (Pool.destroy self s) as [[] s1| | |]; try done.
    intros [= <- <-]. by left.
Qed.

Lemma exec_owned_cells_ok T c s ow s' ow' :
  inv2 s ow → owned_cells_ok s ow →
  exec T c (s, ow) = Some (s', ow') →
  owned_cells_ok s' ow'.
Proof.
  intros Hinv Hcells Hexec a Ha.
  pose proof (exec_inv2 _ _ _ _ _ _ Hinv Hexec) as (_ & _ & Hown').
  destruct (exec_owned _ _ _ _ _ _ _ _ Hexec Ha) as [Hold|(self & Hlive & Hal)].
  - destruct (Hcells a Hold) as [t Ht].
    destruct (exec_backref_kept _ _ _ _ _ _ _ _ Hexec Ht) as [Hgone|Hkept];
      [|by eexists].
    destruct (Hown' a 1%Z Ha) as [[b Hb] _]. congruence.
  - exists self. eapply allocate_one_backref; [done| |done].
    destruct (proj1 Hinv self) as (l & Hl & Hall). exists l. split; [done|].
    eapply Forall_impl; [done|]. by intros x [? _].
Qed.

Lemma reachable_owned_cells_ok T s ow : reachable T s ow → owned_cells_ok s ow.
Proof.
  induction 1 as [o|c s ow s' ow' Hr IH Hexec].
  - intros a. by rewrite lookup_empty.
  - eapply exec_owned_cells_ok; [by eapply reachable_inv2|done..].
Qed.

(** A permitted call is defined in every state that a program reaches by
    calls that keep to the protocol: no indeterminate field, released
    block or destroyed cache is read, and the loops end. *)
Lemma permitted_exec_is_Some T s ow c :
  reachable T s ow →
  permitted s ow c →
  is_Some (exec T c (s, ow)).
Proof.
  intros Hr Hperm.
  pose proof (reachable_inv2 _ _ _ Hr) as (Hwf & _ & Hown).
  pose proof (reachable_owned_cells_ok _ _ _ Hr) as Hcells.
  destruct c as [self n|self a n|self|self]; simpl in Hperm; unfold exec.
  - rewrite decide_False by done.
    destruct (decide (n = 1%Z)) as [->|Hn].
    + destruct (sentinel s !! self) as [a|] eqn:Hhd.
      * destruct (Hwf self) as (l & Hl & _). rewrite Hhd in Hl.
        inversion Hl as [|? b nxt l' Hb Hnx Hl']; subst.
        by rewrite (allocate_hit _ _ _ _ _ _ Hperm Hhd Hb Hnx).
      * destruct (oracle s) as [|[a|] o] eqn:Ho.
        -- rewrite allocate_miss_bad_alloc; [done..|by rewrite Ho].
        -- destruct (heap s !! a) as [b|] eqn:Hb.
           ++ rewrite allocate_miss_bad_alloc; [done..|].
              intros a' o'. rewrite Ho. intros [= <- <-]. eauto.
           ++ by rewrite (allocate_miss _ _ _ a o).
        -- rewrite allocate_miss_bad_alloc; [done..|by rewrite Ho].
    + rewrite allocate_bulk by done. unfold mbind, M_bind.
      destruct (operator_new_defined (size_mul n (sizeof_Node T)) s) as [Hu Ht].
      destruct (operator_new _ s) as [a s1|s1| |]; done.
  - destruct Hperm as (Hlive & How & Howner).
    rewrite decide_False by done. rewrite decide_True by done.
    destruct (Hown _ _ How) as [[b Hb] _].
    destruct (decide (n = 0%Z)) as [->|H0].
    { unfold deallocate. by rewrite decide_True. }
    destruct (decide (n = 1%Z)) as [->|H1].
    + destruct (Hcells a How) as [t Ht].
      pose proof (Howner eq_refl t Ht) as Hto.
      apply backref_Some in Ht as (b' & Hb' & Hpool).
      by rewrite (deallocate_one _ _ _ _ _ _ Hb' Hpool Hto).
    + rewrite deallocate_bulk by done. unfold operator_delete. by rewrite Hb.
  - rewrite decide_False by done. destruct (Hwf self) as (l & Hl & _).
    unfold clear. by rewrite (clear_spec _ _ _ Hperm Hl).
  - rewrite decide_False by done. destruct (Hwf self) as (l & Hl & _).
    unfold Pool.destroy. by rewrite (bind_Ok _ _ _ _ _ (clear_spec _ _ _ Hperm Hl)).
Qed.


(** ** The sizes of sized releases *)

Lemma requested_size_snoc_New tr sz a :
  requested_size (tr ++ [New sz a]) a = Some sz.
Proof.
  induction tr as [|[sz0 a0|sz0|a0 sz0] tr IH]; simpl.
  - by rewrite decide_True.
  - by rewrite IH.
  - done.
  - done.
Qed.

Lemma requested_size_snoc_New_ne tr sz a a' :
  a' ≠ a → requested_size (tr ++ [New sz a']) a = requested_size tr a.
Proof.
  intros Hne. induction tr as [|[sz0 a0|sz0|a0 sz0] tr IH]; simpl.
  - by rewrite decide_False.
  - by rewrite IH.
  - done.
  - done.
Qed.

(** Only requests count. *)
Lemma requested_size_app_other tr evs a :
  (∀ sz a', New sz a' ∉ evs) →
  requested_size (tr ++ evs) a = requested_size tr a.
Proof.
  intros Hev. induction tr as [|[sz0 a0|sz0|a0 sz0] tr IH]; simpl.
  - induction evs as [|[sz0 a0|sz0|a0 sz0] evs IH]; simpl; [done| |apply IH..].
    + exfalso. apply (Hev sz0 a0). by left.
    + intros sz a' Hin. apply (Hev sz a'). by right.
    + intros sz a' Hin. apply (Hev sz a'). by right.
  - by rewrite IH.
  - done.
  - done.
Qed.

Lemma sized_releases_match_app tr evs :
  sized_releases_match tr →
  (∀ ev1 a sz ev2, evs = ev1 ++ Delete a (Some sz) :: ev2 →
                   requested_size (tr ++ ev1) a = Some sz) →
  sized_releases_match (tr ++ evs).
Proof.
  intros Htr Hev tr1 a sz tr2 Heq.
  apply app_eq_inv in Heq as [(k & -> & Hk)|(k & -> & Hk)].
  - destruct k as [|e k]; simpl in Hk.
    + specialize (Hev [] a sz tr2). rewrite !app_nil_r in Hev. by apply Hev.
    + injection Hk as <- _. by apply (Htr tr1 a sz k).
  - by apply (Hev k a sz tr2).
Qed.

Lemma sized_releases_match_unsized tr evs :
  sized_releases_match tr →
  (∀ a sz, Delete a (Some sz) ∉ evs) →
  sized_releases_match (tr ++ evs).
Proof.
  intros Htr Hev. apply sized_releases_match_app; [done|].
  intros ev1 a sz ev2 ->. exfalso. apply (Hev a sz).
  apply elem_of_app. right. by left.
Qed.

Lemma unsized_deletes l a sz :
  Delete a (Some sz) ∉ map (λ a, Delete a None) l.
Proof.
  intros Hin. apply list_elem_of_fmap in Hin as (x & Hx & _). done.
Qed.

Lemma no_request_in_deletes l sz a :
  New sz a ∉ map (λ a, Delete a None) l.
Proof.
  intros Hin. apply list_elem_of_fmap in Hin as (x & Hx & _). done.
Qed.

Lemma not_in_singleton (e e' : SysCall) : e ≠ e' → e ∉ [e'].
Proof.
  intros Hne Hin. apply elem_of_cons in Hin as [?|Hin]; [done|].
  by apply elem_of_nil in Hin.
Qed.

Lemma sized_inv_initial T o : sized_inv T (initial o) ∅.
Proof.
  split.
  - intros tr1 a sz tr2 Heq. simpl in Heq. by destruct tr1.
  - intros a n. by rewrite lookup_empty.
Qed.

(** A block that is requested and given to the program. *)
Lemma sized_inv_fresh T s ow a b n sz o :
  sized_inv T s ow →
  (n ≠ 1%Z → sz = size_mul n (sizeof_Node T)) →
  sized_inv T {| heap := <[a := b]> (heap s); sentinel := sentinel s;
                 exited := exited s; oracle := o;
                 trace := trace s ++ [New sz a] |} (<[a := n]> ow).
Proof.
  intros [Hm Hk] Hsz. split; simpl.
  - apply sized_releases_match_unsized; [done|].
    intros a' sz'. by apply not_in_singleton.
  - intros a' n'. destruct (decide (a' = a)) as [->|Hne].
    + rewrite lookup_insert_eq. intros [= <-] Hn. simpl.
      rewrite requested_size_snoc_New. f_equal. by apply Hsz.
    + rewrite lookup_insert_ne by done. intros How Hn. simpl.
      rewrite requested_size_snoc_New_ne by done. by apply Hk.
Qed.

Lemma sized_inv_failed T s ow sz :
  sized_inv T s ow →
  sized_inv T (set_sys (tail (oracle s)) (trace s ++ [NewFailed sz]) s) ow.
Proof.
  intros [Hm Hk]. split; simpl.
  - apply sized_releases_match_unsized; [done|].
    intros a' sz'. by apply not_in_singleton.
  - intros a n How Hn. simpl. rewrite requested_size_app_other; [by apply Hk|].
    intros sz' a'. by apply not_in_singleton.
Qed.

Lemma sized_inv_clear T s ow l h m e :
  sized_inv T s ow →
  sized_inv T {| heap := h; sentinel := m; exited := e; oracle := oracle s;
                 trace := trace s ++ map (λ a, Delete a None) l |} ow.
Proof.
  intros [Hm Hk]. split; simpl.
  - apply sized_releases_match_unsized; [done|]. intros a sz. apply unsized_deletes.
  - intros a n How Hn. simpl. rewrite requested_size_app_other; [by apply Hk|].
    intros sz a'. apply no_request_in_deletes.
Qed.

Lemma exec_sized_inv T c s ow s' ow' :
  wf s ow →
  sized_inv T s ow →
  sized_ok T c →
  exec T c (s, ow) = Some (s', ow') →
  sized_inv T s' ow'.
Proof.
  intros Hwf Hinv Hok. destruct c as [self n|self a n|self|self]; unfold exec;
    (destruct (decide (self ∈ exited s)) as [|Hlive]; [done|]).
  - destruct (decide (n = 1%Z)) as [->|Hn].
    + destruct (sentinel s !! self) as [a|] eqn:Hhd.
      * destruct (Hwf self) as (l & Hl & _). rewrite Hhd in Hl.
        inversion Hl as [|? b nxt l' Hb Hnx Hl']; subst.
        rewrite (allocate_hit _ _ _ _ _ _ Hlive Hhd Hb Hnx).
        intros [= <- <-]. destruct Hinv as [Hm Hk]. split; [done|].
        intros a' n'. destruct (decide (a' = a)) as [->|Hne].
        -- rewrite lookup_insert_eq. by intros [= <-].
        -- rewrite lookup_insert_ne by done. apply Hk.
      * destruct (oracle s) as [|[a|] o] eqn:Ho.
        -- rewrite allocate_miss_bad_alloc; [|done..|by rewrite Ho].
           intros [= <- <-]. by apply (sized_inv_failed T s ow).
        -- destruct (heap s !! a) as [b|] eqn:Hb.
           ++ rewrite allocate_miss_bad_alloc; [|done..|].
              ** intros [= <- <-]. by apply (sized_inv_failed T s ow).
              ** intros a' o'. rewrite Ho. intros [= <- <-]. eauto.
           ++ rewrite (allocate_miss _ _ _ a o) by done.
              intros [= <- <-]. by apply sized_inv_fresh.
        -- rewrite allocate_miss_bad_alloc; [|done..|by rewrite Ho].
           intros [= <- <-]. by apply (sized_inv_failed T s ow).
    + rewrite allocate_bulk by done. unfold mbind, M_bind.
      destruct (operator_new _ s) as [a s1|s1| |] eqn:Hnew; [| |done..].
      * apply operator_new_Ok in Hnew as (o & Ho & Hfresh & ->).
        intros [= <- <-]. by apply sized_inv_fresh.
      * apply operator_new_bad_alloc in Hnew as ->.
        intros [= <- <-]. by apply (sized_inv_failed T s ow).
  - destruct (decide (ow !! a = Some n)) as [How|]; [|done].
    destruct Hinv as [Hm Hk].
    assert (bulk_sizes_recorded T s (delete a ow)) as Hk'.
    { intros a' n'. destruct (decide (a' = a)) as [->|Hne].
      - by rewrite lookup_delete_eq.
      - rewrite lookup_delete_ne by done. apply Hk. }
    destruct (decide (n = 0%Z)) as [->|H0].
    { unfold deallocate. rewrite decide_True by done. by intros [= <- <-]. }
    destruct (decide (n = 1%Z)) as [->|H1].
    + destruct (deallocate T self (Some a) 1 s) as [[] s1| | |] eqn:Hd; try done.
      destruct (deallocate_one_Ok _ _ _ _ _ Hd) as (b & owner & Hb & Hpool & Hlo).
      rewrite (deallocate_one _ _ _ _ _ _ Hb Hpool Hlo) in Hd.
      injection Hd as <-. by intros [= <- <-].
    + rewrite deallocate_bulk by done. unfold operator_delete.
      destruct (heap s !! a) as [b|] eqn:Hb; [|done].
      intros [= <- <-]. split; simpl.
      * apply sized_releases_match_app; [done|].
        intros ev1 a' sz ev2 Heq.
        destruct ev1 as [|e ev1]; [|by destruct ev1].
        injection Heq as <- <-. rewrite app_nil_r.
        rewrite (Hk a n How H1). f_equal.
        simpl in Hok. destruct Hok as [?|Hsz]; [done|]. by rewrite Hsz.
      * intros a' n' How' Hn'. simpl. rewrite requested_size_app_other.
        -- by apply Hk'.
        -- intros sz a''. by apply not_in_singleton.
  - destruct (Hwf self) as (l & Hl & _).
    unfold clear. rewrite (clear_spec _ _ _ Hlive Hl).
    intros [= <- <-]. by apply sized_inv_clear.
  - destruct (Hwf self) as (l & Hl & _).
    unfold Pool.destroy. rewrite (bind_Ok _ _ _ _ _ (clear_spec _ _ _ Hlive Hl)).
    intros [= <- <-]. by apply (sized_inv_clear T s ow l).
Qed.

Lemma reachable_sized_reachable T s ow :
  reachable_sized T s ow → reachable T s ow.
Proof.
  induction 1 as [o|c s ow s' ow' _ IH _ Hexec]; [apply reachable_initial|].
  by eapply reachable_exec.
Qed.

Lemma reachable_sized_inv T s ow : reachable_sized T s ow → sized_inv T s ow.
Proof.
  induction 1 as [o|c s ow s' ow' Hr IH Hok Hexec]; [apply sized_inv_initial|].
  eapply exec_sized_inv; [|done..].
  by eapply reachable_wf, reachable_sized_reachable.
Qed.

Lemma reachable_sized_exec_all T cs : ∀ s ow s' ow',
  reachable_sized T s ow →
  Forall (sized_ok T) cs →
  exec_all T cs (s, ow) = Some (s', ow') →
  reachable_sized T s' ow'.
Proof.
  induction cs as [|c cs IH]; intros s ow s' ow' Hr Hok.
  - by intros [= <- <-].
  - apply Forall_cons in Hok as [Hc Hcs]. cbn [exec_all].
    destruct (exec T c (s, ow)) as [[s1 ow1]|] eqn:He; [|done].
    apply IH; [|done]. by eapply reachable_sized_exec.
Qed.

(** A release on the bulk path that announces another size than the one
    requested leaves a trace that breaks the requirement of the sized
    [::operator delete]. *)
Lemma exec_unsized_release T self a n s ow s' ow' :
  bulk_sizes_recorded T s ow →
  ¬ sized_ok T (Call_deallocate self a n) →
  exec T (Call_deallocate self a n) (s, ow) = Some (s', ow') →
  ¬ sized_releases_match (trace s').
Proof.
  intros Hk Hok. unfold exec.
  destruct (decide (self ∈ exited s)) as [|Hlive]; [done|].
  destruct (decide (ow !! a = Some n)) as [How|]; [|done].
  assert (n ≠ 0%Z) as H0.
  { intros ->. apply Hok. by right. }
  assert (n ≠ 1%Z) as H1.
  { intros ->. apply Hok. by left. }
  rewrite deallocate_bulk by done. unfold operator_delete.
  destruct (heap s !! a) as [b|] eqn:Hb; [|done].
  intros [= <- <-] Hm. simpl in Hm.
  specialize (Hm (trace s) a _ [] eq_refl).
  rewrite (Hk a n How H1) in Hm. injection Hm as Hsz.
  apply Hok. by right.
Qed.

(** A program that keeps to the protocol, one call at a time, and whose
    releases on the bulk path announce the size that was requested, stays
    within defined behaviour: in every state it reaches, every sized
    release recorded so far carries the requested size, and every such
    call that the protocol permits returns or throws [bad_alloc], reading
    no indeterminate field, no released block and no destroyed cache, and
    leaves a trace of which the same holds.  A permitted
    [deallocate(p, n)] whose announced size [n * sizeof(value_type)] is
    not the requested [n * sizeof(Node)], which is the case for [n >= 2]
    but for wrap-around, returns too, and leaves a trace in which its
    sized release does not carry the requested size: the call is outside
    defined behaviour. *)
Theorem permitted_calls_are_defined T s ow :
  reachable_sized T s ow →
  sized_releases_match (trace s) ∧
  (∀ c, permitted s ow c → sized_ok T c →
        ∃ s' ow', exec T c (s, ow) = Some (s', ow') ∧
                  sized_releases_match (trace s')) ∧
  (∀ c, permitted s ow c → ¬ sized_ok T c →
        ∃ s' ow', exec T c (s, ow) = Some (s', ow') ∧
                  ¬ sized_releases_match (trace s')).
Proof.
  intros Hr. split; [apply (reachable_sized_inv _ _ _ Hr)|].
  split; intros c Hperm Hok;
    (destruct (permitted_exec_is_Some T s ow c) as [[s' ow'] Hexec];
     [by apply reachable_sized_reachable|done|]);
    exists s', ow'; (split; [done|]).
  - eapply reachable_sized_inv, reachable_sized_exec; done.
  - destruct c as [self n|self a n|self|self]; try (by destruct Hok).
    eapply exec_unsized_release; [|done..].
    apply (reachable_sized_inv _ _ _ Hr).
Qed.

Lemma three_calls_reachable_sized :
  ∃ s ow, exec_all int_LP64 three_calls
            (initial [Some 10; Some 11]%positive, ∅) = Some (s, ow) ∧
          reachable_sized int_LP64 s ow.
Proof.
  destruct (exec_all int_LP64 three_calls
              (initial [Some 10; Some 11]%positive, ∅)) as [[s ow]|] eqn:E;
    [|vm_compute in E; discriminate].
  exists s, ow. split; [reflexivity|].
  eapply reachable_sized_exec_all; [apply reachable_sized_initial| |exact E].
  repeat constructor.
Defined.

Lemma bulk_call_reachable_sized :
  ∃ s ow, exec_all int_LP64 bulk_call (initial [Some 10%positive], ∅)
            = Some (s, ow) ∧
          reachable_sized int_LP64 s ow.
Proof.
  destruct (exec_all int_LP64 bulk_call (initial [Some 10%positive], ∅))
    as [[s ow]|] eqn:E; [|vm_compute in E; discriminate].
  exists s, ow. split; [reflexivity|].
  eapply reachable_sized_exec_all; [apply reachable_sized_initial| |exact E].
  repeat constructor.
Defined.

Lemma permitted_calls_are_defined_witness :
  (∃ s ow, exec_all int_LP64 three_calls
             (initial [Some 10; Some 11]%positive, ∅) = Some (s, ow) ∧
           is_Some (exec int_LP64 (Call_clear 1) (s, ow))) ∧
  (∃ s ow s' ow',
     exec_all int_LP64 bulk_call (initial [Some 10%positive], ∅) = Some (s, ow) ∧
     exec int_LP64 (Call_deallocate 1 10 2) (s, ow) = Some (s', ow') ∧
     ¬ sized_releases_match (trace s')).
Proof.
  split.
  - destruct three_calls_reachable_sized as (s & ow & Hexec & Hr).
    exists s, ow. split; [exact Hexec|].
    destruct (permitted_calls_are_defined int_LP64 s ow Hr) as (_ & Hdef & _).
    destruct (Hdef (Call_clear 1)) as (s' & ow' & Hs' & _).
    + simpl. intros Hin.
      assert (exited s = ∅) as Hex.
      { revert Hexec. vm_compute. by intros [= <- _]. }
      rewrite Hex in Hin. by apply not_elem_of_empty in Hin.
    + exact I.
    + by eexists.
  - destruct bulk_call_reachable_sized as (s & ow & Hexec & Hr).
    destruct (permitted_calls_are_defined int_LP64 s ow Hr) as (_ & _ & Hbad).
    destruct (Hbad (Call_deallocate 1 10 2)) as (s' & ow' & Hs' & Hno).
    + assert (exited s = ∅ ∧ ow !! 10%positive = Some 2%Z) as [Hex How].
      { revert Hexec. vm_compute. by intros [= <- <-]. }
      split; [|split; [exact How|intros [=]]].
      rewrite Hex. apply not_elem_of_empty.
    + simpl. vm_compute. by intros [[=]|[=]].
    + by exists s, ow, s', ow'.
Defined.
(** * The earlier variant *)

Arguments Earlier.SharedPool.compare_exchange : simpl never.

Ltac earlier_unfold :=
  unfold Earlier.allocate, Earlier.deallocate, Earlier.alloc, Earlier.dealloc,
    Earlier.add_to_shared_pool, Earlier.move_from_shared_to_local_pool,
    Earlier.reuse_from_local_pool, Earlier.move_from_local_to_shared_pool,
    Earlier.SharedPool.try_compare_exchange, Earlier.SharedPool.load,
    Earlier.LocalPool.get, Earlier.LocalPool.assign, Earlier.lift,
    operator_new, operator_delete, read_next, write_next, get_block, put_block,
    fail_undefined, mbind, Earlier.E_bind, M_bind, mret, Earlier.E_ret, M_ret.

Ltac earlier_crunch :=
  repeat (progress (simpl;
                    try rewrite decide_True by done;
                    try rewrite decide_False by done;
                    try match goal with
                        | H : _ !! _ = _ |- _ => rewrite H
                        | H : next _ = _ |- _ => rewrite H
                        | H : oracle _ = _ |- _ => rewrite H
                        | H : Earlier.shared_head _ = _ |- _ => rewrite H
                        end;
                    try rewrite lookup_insert_eq;
                    try rewrite lookup_delete_eq;
                    try rewrite lookup_set_head_eq)).

Lemma local_head_restored this (m : gmap positive positive) p q :
  m !! this = None → delete this (set_head this p (set_head this q m)) = m.
Proof.
  intros H. change (delete this ?x) with (set_head this None x).
  rewrite !set_head_set_head. simpl. by apply delete_id.
Qed.

(** ** The retry loop *)

(** The loop of [compare_exchange], entered with [expected] equal to the
    head: every spurious failure writes the head, which is what [expected]
    holds already, and the first attempt that does not fail spuriously
    succeeds. *)
Lemma earlier_compare_exchange_loop e desired assign : ∀ sp fuel w,
  Earlier.spurious w = sp →
  Earlier.shared_head w = e →
  length sp < fuel →
  (∀ sp', assign e (Earlier.set_spurious sp' w)
          = Earlier.Returns tt (Earlier.set_spurious sp' w)) →
  Earlier.SharedPool.compare_exchange_loop fuel e desired assign w =
  Earlier.Returns e
    {| Earlier.mem := Earlier.mem w; Earlier.shared_head := desired;
       Earlier.local_head := Earlier.local_head w;
       Earlier.local_gone := Earlier.local_gone w;
       Earlier.spurious := Earlier.after_retry sp |}.
Proof.
  induction sp as [|[] sp IH]; intros fuel w Hsp Hsh Hfuel Hassign;
    (destruct fuel as [|fuel]; simpl in Hfuel; [lia|]); simpl;
    unfold Earlier.SharedPool.try_compare_exchange, mbind, Earlier.E_bind;
    rewrite decide_True by done; rewrite Hsp; simpl; [done| |done].
  rewrite Hsh, (Hassign sp).
  rewrite (IH fuel (Earlier.set_spurious sp w)); [done|done|done|lia|].
  intros sp'. apply Hassign.
Qed.

Lemma earlier_compare_exchange e desired assign w :
  Earlier.shared_head w = e →
  (∀ sp', assign e (Earlier.set_spurious sp' w)
          = Earlier.Returns tt (Earlier.set_spurious sp' w)) →
  Earlier.SharedPool.compare_exchange e desired assign w =
  Earlier.Returns e
    {| Earlier.mem := Earlier.mem w; Earlier.shared_head := desired;
       Earlier.local_head := Earlier.local_head w;
       Earlier.local_gone := Earlier.local_gone w;
       Earlier.spurious := Earlier.after_retry (Earlier.spurious w) |}.
Proof.
  intros Hsh Hassign. unfold Earlier.SharedPool.compare_exchange.
  apply earlier_compare_exchange_loop; [done|done|lia|done].
Qed.

(** Writing to [node->next] what it holds. *)
Lemma earlier_write_next_same p b e w :
  heap (Earlier.mem w) !! p = Some b → next b = Some e →
  Earlier.lift (write_next p e) w = Earlier.Returns tt w.
Proof.
  intros Hb Hnx.
  unfold Earlier.lift, write_next, get_block, put_block, mbind, M_bind.
  rewrite Hb. simpl. rewrite <-Hnx.
  replace {| bytes := bytes b; next := next b; pool := pool b |} with b
    by by destruct b.
  rewrite insert_id by done. by destruct w as [[]].
Qed.

(** The push of [add_to_shared_pool] and of the loop of [~LocalPool()],
    once [node->next] holds the head. *)
Lemma earlier_compare_exchange_push p b e w :
  heap (Earlier.mem w) !! p = Some b →
  next b = Some e →
  Earlier.shared_head w = e →
  Earlier.SharedPool.compare_exchange e (Some p)
    (λ v, Earlier.lift (write_next p v)) w =
  Earlier.Returns e
    {| Earlier.mem := Earlier.mem w; Earlier.shared_head := Some p;
       Earlier.local_head := Earlier.local_head w;
       Earlier.local_gone := Earlier.local_gone w;
       Earlier.spurious := Earlier.after_retry (Earlier.spurious w) |}.
Proof.
  intros Hb Hnx Hsh. apply earlier_compare_exchange; [done|].
  intros sp'. by apply (earlier_write_next_same p b).
Qed.

Lemma earlier_lift_write_next p b v w :
  heap (Earlier.mem w) !! p = Some b →
  Earlier.lift (write_next p v) w =
  Earlier.Returns tt
    {| Earlier.mem :=
         set_heap (<[p := {| bytes := bytes b; next := Some v; pool := pool b |}]>
                     (heap (Earlier.mem w))) (Earlier.mem w);
       Earlier.shared_head := Earlier.shared_head w;
       Earlier.local_head := Earlier.local_head w;
       Earlier.local_gone := Earlier.local_gone w;
       Earlier.spurious := Earlier.spurious w |}.
Proof.
  intros Hb.
  unfold Earlier.lift, write_next, get_block, put_block, mbind, M_bind.
  by rewrite Hb.
Qed.

Lemma earlier_lift_read_next p b e w :
  heap (Earlier.mem w) !! p = Some b → next b = Some e →
  Earlier.lift (read_next p) w = Earlier.Returns e w.
Proof.
  intros Hb Hnx.
  unfold Earlier.lift, read_next, get_block, mbind, M_bind.
  rewrite Hb, Hnx. by destruct w.
Qed.

(** [deallocate(p, 1)] of a live block. *)
Lemma earlier_deallocate_one T self w a b :
  heap (Earlier.mem w) !! a = Some b →
  Earlier.deallocate T self (Some a) 1 w =
  Earlier.Returns tt
    {| Earlier.mem :=
         set_heap (<[a := {| bytes := bytes b;
                             next := Some (Earlier.shared_head w);
                             pool := pool b |}]> (heap (Earlier.mem w)))
                  (Earlier.mem w);
       Earlier.shared_head := Some a;
       Earlier.local_head := Earlier.local_head w;
       Earlier.local_gone := Earlier.local_gone w;
       Earlier.spurious := Earlier.after_retry (Earlier.spurious w) |}.
Proof.
  intros Hb. unfold Earlier.deallocate, Earlier.add_to_shared_pool.
  rewrite decide_True by done.
  unfold Earlier.SharedPool.load, mbind, Earlier.E_bind.
  rewrite (earlier_lift_write_next a b _ w Hb).
  erewrite earlier_lift_read_next; [|apply lookup_insert_eq|reflexivity].
  erewrite (earlier_compare_exchange_push a);
    [done|apply lookup_insert_eq|reflexivity|reflexivity].
Qed.

(** [move_from_shared_to_local_pool()] by a thread whose local pool is
    empty. *)
Lemma earlier_take_all self w :
  self ∉ Earlier.local_gone w →
  Earlier.local_head w !! self = None →
  Earlier.move_from_shared_to_local_pool self w =
  Earlier.Returns tt
    {| Earlier.mem := Earlier.mem w; Earlier.shared_head := None;
       Earlier.local_head :=
         set_head self (Earlier.shared_head w) (Earlier.local_head w);
       Earlier.local_gone := Earlier.local_gone w;
       Earlier.spurious := Earlier.after_retry (Earlier.spurious w) |}.
Proof.
  intros Hlive Hloc.
  unfold Earlier.move_from_shared_to_local_pool, Earlier.LocalPool.get,
    Earlier.SharedPool.load, mbind, Earlier.E_bind.
  rewrite decide_False by done. rewrite Hloc.
  unfold Earlier.LocalPool.assign at 1. rewrite decide_False by done.
  cbn [Earlier.local_gone Earlier.local_head]. rewrite decide_False by done.
  rewrite lookup_set_head_eq.
  rewrite earlier_compare_exchange; [done|done|].
  intros sp'. unfold Earlier.LocalPool.assign. simpl.
  rewrite decide_False by done. by rewrite set_head_set_head.
Qed.

(** [allocate(1)] with cells in the shared pool, by a thread whose local
    pool is empty.  The rest of the list goes back to the shared pool
    unless the one attempt of [move_from_local_to_shared_pool] fails
    spuriously; then it stays in the local pool of the caller. *)
Lemma earlier_allocate_hit T self w a b nxt :
  self ∉ Earlier.local_gone w →
  Earlier.local_head w !! self = None →
  Earlier.shared_head w = Some a →
  heap (Earlier.mem w) !! a = Some b →
  next b = Some nxt →
  Earlier.allocate T self 1 w =
  Earlier.Returns (Some a)
    {| Earlier.mem := Earlier.mem w;
       Earlier.shared_head :=
         if Earlier.fails (Earlier.after_retry (Earlier.spurious w))
         then None else nxt;
       Earlier.local_head :=
         if Earlier.fails (Earlier.after_retry (Earlier.spurious w))
         then set_head self nxt (Earlier.local_head w)
         else Earlier.local_head w;
       Earlier.local_gone := Earlier.local_gone w;
       Earlier.spurious := tail (Earlier.after_retry (Earlier.spurious w)) |}.
Proof.
  intros Hlive Hloc Hsh Hb Hnx. unfold Earlier.allocate.
  rewrite decide_True by done. unfold mbind at 1 2, Earlier.E_bind at 1 2.
  rewrite earlier_take_all by done. rewrite Hsh.
  earlier_unfold. earlier_crunch.
  destruct (Earlier.fails _); simpl.
  - unfold Earlier.set_spurious. simpl. f_equal. f_equal.
    apply (set_head_set_head self nxt (Some a)).
  - rewrite decide_False by done. simpl.
    f_equal. f_equal. apply (local_head_restored self _ nxt (Some a) Hloc).
Qed.

(** [allocate(1)] with both pools empty. *)
Lemma earlier_allocate_miss T self w a o :
  self ∉ Earlier.local_gone w →
  Earlier.local_head w !! self = None →
  Earlier.shared_head w = None →
  oracle (Earlier.mem w) = Some a :: o →
  heap (Earlier.mem w) !! a = None →
  Earlier.allocate T self 1 w =
  Earlier.Returns (Some a)
    {| Earlier.mem :=
         {| heap := <[a := {| bytes := size_mul 1 (sizeof_Node T);
                              next := None; pool := None |}]>
                      (heap (Earlier.mem w));
            sentinel := sentinel (Earlier.mem w);
            exited := exited (Earlier.mem w);
            oracle := o;
            trace := trace (Earlier.mem w)
                       ++ [New (size_mul 1 (sizeof_Node T)) a] |};
       Earlier.shared_head := None;
       Earlier.local_head := Earlier.local_head w;
       Earlier.local_gone := Earlier.local_gone w;
       Earlier.spurious := tail (Earlier.after_retry (Earlier.spurious w)) |}.
Proof.
  intros Hlive Hloc Hsh Ho Hfresh. unfold Earlier.allocate.
  rewrite decide_True by done. unfold mbind at 1 2, Earlier.E_bind at 1 2.
  rewrite earlier_take_all by done. rewrite Hsh.
  earlier_unfold. earlier_crunch.
  destruct (Earlier.fails _); earlier_crunch; by rewrite !(delete_id _ _ Hloc).
Qed.

(** [allocate(1)] by a thread whose local pool holds cells, while the
    shared pool holds cells too: the head of the local pool is taken and
    the shared pool is left as it is. *)
Lemma earlier_allocate_local T self w a c b nxt :
  self ∉ Earlier.local_gone w →
  Earlier.local_head w !! self = Some c →
  Earlier.shared_head w = Some a →
  heap (Earlier.mem w) !! c = Some b →
  next b = Some nxt →
  Earlier.allocate T self 1 w =
  Earlier.Returns (Some c)
    {| Earlier.mem := Earlier.mem w;
       Earlier.shared_head := Some a;
       Earlier.local_head := set_head self nxt (Earlier.local_head w);
       Earlier.local_gone := Earlier.local_gone w;
       Earlier.spurious := tail (Earlier.spurious w) |}.
Proof.
  intros Hlive Hloc Hsh Hb Hnx. earlier_unfold. earlier_crunch.
  done.
Qed.

(** In the earlier variant [allocate(1)], called by a thread whose local
    pool is empty, takes the head of the shared pool: the shared list is
    moved to the local pool and its first cell is taken.  The rest is
    moved back by one attempt of [compare_exchange_weak] that is not
    repeated: if the attempt succeeds, the shared pool holds the cells
    after the head and the local pool is empty again; if it fails
    spuriously, the rest stays in the local pool of the caller and the
    shared pool is left empty.  With an empty shared pool the call
    requests [1 * sizeof(Node)] bytes from the system allocator. *)
Theorem earlier_allocate_one_pops_shared_pool T self w :
  self ∉ Earlier.local_gone w →
  Earlier.local_head w !! self = None →
  (∀ a b nxt,
     Earlier.shared_head w = Some a →
     heap (Earlier.mem w) !! a = Some b → next b = Some nxt →
     ∃ w', Earlier.allocate T self 1 w = Earlier.Returns (Some a) w' ∧
           Earlier.mem w' = Earlier.mem w ∧
           if Earlier.fails (Earlier.after_retry (Earlier.spurious w))
           then Earlier.shared_head w' = None ∧
                Earlier.local_head w' = set_head self nxt (Earlier.local_head w)
           else Earlier.shared_head w' = nxt ∧
                Earlier.local_head w' = Earlier.local_head w)
  ∧
  (∀ a o,
     Earlier.shared_head w = None →
     oracle (Earlier.mem w) = Some a :: o →
     heap (Earlier.mem w) !! a = None →
     ∃ w', Earlier.allocate T self 1 w = Earlier.Returns (Some a) w' ∧
           Earlier.shared_head w' = None ∧
           Earlier.local_head w' = Earlier.local_head w ∧
           trace (Earlier.mem w') =
             trace (Earlier.mem w) ++ [New (size_mul 1 (sizeof_Node T)) a]).
Proof.
  intros Hlive Hloc. split.
  - intros a b nxt Hsh Hb Hnx. eexists.
    split; [by eapply earlier_allocate_hit|]. simpl. split; [done|].
    by destruct (Earlier.fails _).
  - intros a o Hsh Ho Hfresh. eexists.
    split; [by eapply earlier_allocate_miss|done].
Qed.

Lemma earlier_pools_live : 1%positive ∉ Earlier.local_gone Earlier.pools.
Proof. apply not_elem_of_empty. Defined.

Lemma earlier_allocate_one_pops_shared_pool_witness :
  (∃ w', Earlier.allocate Earlier.int_LP64 1 1 Earlier.pools
           = Earlier.Returns (Some 10%positive) w' ∧
         Earlier.shared_head w' = Some 11%positive ∧
         Earlier.local_head w' !! 1%positive = None) ∧
  (∃ w', Earlier.allocate Earlier.int_LP64 1 1
           (Earlier.set_spurious [false; true] Earlier.pools)
           = Earlier.Returns (Some 10%positive) w' ∧
         Earlier.shared_head w' = None ∧
         Earlier.local_head w' !! 1%positive = Some 11%positive).
Proof.
  split.
  - destruct (earlier_allocate_one_pops_shared_pool Earlier.int_LP64 1 Earlier.pools
                earlier_pools_live eq_refl) as [Hhit _].
    destruct (Hhit 10%positive
                {| bytes := 8; next := Some (Some 11%positive); pool := None |}
                (Some 11%positive) eq_refl eq_refl eq_refl)
      as (w' & Hw' & _ & Hsh & Hlh).
    exists w'. split; [exact Hw'|]. split; [exact Hsh|]. rewrite Hlh. reflexivity.
  - destruct (earlier_allocate_one_pops_shared_pool Earlier.int_LP64 1
                (Earlier.set_spurious [false; true] Earlier.pools)
                earlier_pools_live eq_refl) as [Hhit _].
    destruct (Hhit 10%positive
                {| bytes := 8; next := Some (Some 11%positive); pool := None |}
                (Some 11%positive) eq_refl eq_refl eq_refl)
      as (w' & Hw' & _ & Hsh & Hlh).
    exists w'. split; [exact Hw'|]. split; [exact Hsh|]. rewrite Hlh. reflexivity.
Defined.

(** Round trip in the earlier variant, across threads.  The cell that a
    thread whose local pool is empty gets from [allocate(1)] and any
    thread gives back with [deallocate(p, 1)] becomes the head of the
    shared pool.  The next [allocate(1)] returns it, without a call to the
    system allocator, if the local pool of the calling thread is empty at
    that call.  A thread whose local pool holds cells at that call gets
    the head of its local pool instead and leaves the shared pool as it
    is: this is the first thread itself when the one attempt of its first
    call to move the rest of the list back failed spuriously. *)
Theorem earlier_round_trip_across_threads T t1 t2 t3 w p w1 :
  t1 ∉ Earlier.local_gone w →
  Earlier.local_head w !! t1 = None →
  Earlier.allocate T t1 1 w = Earlier.Returns p w1 →
  p ≠ nullptr ∧
  ∃ w2, Earlier.deallocate T t2 p 1 w1 = Earlier.Returns tt w2 ∧
        Earlier.shared_head w2 = p ∧
        Earlier.local_head w2 = Earlier.local_head w1 ∧
        trace (Earlier.mem w2) = trace (Earlier.mem w1) ∧
        (t3 ∉ Earlier.local_gone w →
         Earlier.local_head w2 !! t3 = None →
         ∃ w3, Earlier.allocate T t3 1 w2 = Earlier.Returns p w3 ∧
               trace (Earlier.mem w3) = trace (Earlier.mem w1)) ∧
        (t3 ∉ Earlier.local_gone w →
         ∀ c b nxt,
           Earlier.local_head w2 !! t3 = Some c →
           heap (Earlier.mem w2) !! c = Some b → next b = Some nxt →
           ∃ w3, Earlier.allocate T t3 1 w2 = Earlier.Returns (Some c) w3 ∧
                 Earlier.shared_head w3 = p ∧
                 Earlier.local_head w3 !! t3 = nxt ∧
                 trace (Earlier.mem w3) = trace (Earlier.mem w1)).
Proof.
  intros Hl1 Hloc1 H1.
  assert (∃ a b, p = Some a ∧ heap (Earlier.mem w1) !! a = Some b ∧
                 Earlier.local_gone w1 = Earlier.local_gone w)
    as (a & b & -> & Hb1 & Hgone).
  { destruct (Earlier.shared_head w) as [a|] eqn:Hsh.
    - destruct (heap (Earlier.mem w) !! a) as [b|] eqn:Hb.
      + destruct (next b) as [nxt|] eqn:Hnx.
        * rewrite (earlier_allocate_hit _ _ _ _ _ _ Hl1 Hloc1 Hsh Hb Hnx) in H1.
          injection H1 as <- <-. by exists a, b.
        * exfalso. revert H1. unfold Earlier.allocate.
          rewrite decide_True by done. unfold mbind at 1 2, Earlier.E_bind at 1 2.
          rewrite earlier_take_all by done. rewrite Hsh.
          earlier_unfold. by earlier_crunch.
      + exfalso. revert H1. unfold Earlier.allocate.
        rewrite decide_True by done. unfold mbind at 1 2, Earlier.E_bind at 1 2.
        rewrite earlier_take_all by done. rewrite Hsh.
        earlier_unfold. by earlier_crunch.
    - assert (∀ r, Earlier.allocate T t1 1 w = r →
                   match oracle (Earlier.mem w) with
                   | Some a :: _ => heap (Earlier.mem w) !! a = None
                   | _ => False
                   end ∨ ∀ q w', r ≠ Earlier.Returns q w') as Hcases.
      { intros r <-. unfold Earlier.allocate.
        rewrite decide_True by done. unfold mbind at 1 2, Earlier.E_bind at 1 2.
        rewrite earlier_take_all by done. rewrite Hsh.
        destruct (oracle (Earlier.mem w)) as [|[a|] o] eqn:Ho.
        - right. intros q w'. earlier_unfold. earlier_crunch.
          destruct (Earlier.fails _); by earlier_crunch.
        - destruct (heap (Earlier.mem w) !! a) as [b|] eqn:Hb; [|by left].
          right. intros q w'. earlier_unfold. earlier_crunch.
          destruct (Earlier.fails _); by earlier_crunch.
        - right. intros q w'. earlier_unfold. earlier_crunch.
          destruct (Earlier.fails _); by earlier_crunch. }
      destruct (Hcases _ H1) as [Hor|Hno]; [|by destruct (Hno p w1)].
      destruct (oracle (Earlier.mem w)) as [|[a|] o] eqn:Ho; try done.
      rewrite (earlier_allocate_miss _ _ _ _ _ Hl1 Hloc1 Hsh Ho Hor) in H1.
      injection H1 as <- <-. eexists a, _. split; [done|].
      split; [apply lookup_insert_eq|done]. }
  split; [done|].
  eexists. split; [by eapply earlier_deallocate_one|]. simpl.
  split; [done|]. split; [done|]. split; [done|]. rewrite Hgone. split.
  - intros Hl3 Hloc3. eexists. split.
    { eapply earlier_allocate_hit; simpl;
        [done|done|reflexivity|apply lookup_insert_eq|reflexivity]. }
    done.
  - intros Hl3 c b' nxt Hloc3 Hc Hnx. eexists.
    split; [eapply earlier_allocate_local; simpl; done|]. simpl.
    split; [done|]. split; [apply lookup_set_head_eq|done].
Qed.

Lemma earlier_round_trip_across_threads_witness :
  (∃ w1 w2 w3,
     Earlier.allocate Earlier.int_LP64 1 1 Earlier.pools
       = Earlier.Returns (Some 10%positive) w1 ∧
     Earlier.deallocate Earlier.int_LP64 2 (Some 10%positive) 1 w1
       = Earlier.Returns tt w2 ∧
     Earlier.allocate Earlier.int_LP64 3 1 w2
       = Earlier.Returns (Some 10%positive) w3) ∧
  (∃ w1 w2 w3,
     Earlier.allocate Earlier.int_LP64 1 1
       (Earlier.set_spurious [false; true] Earlier.pools)
       = Earlier.Returns (Some 10%positive) w1 ∧
     Earlier.deallocate Earlier.int_LP64 2 (Some 10%positive) 1 w1
       = Earlier.Returns tt w2 ∧
     Earlier.allocate Earlier.int_LP64 1 1 w2
       = Earlier.Returns (Some 11%positive) w3).
Proof.
  split.
  - eexists.
    edestruct (earlier_round_trip_across_threads Earlier.int_LP64 1 2 3 Earlier.pools
                 (Some 10%positive))
      as (_ & w2 & H2 & _ & Hlh & _ & Hpos & _);
      [apply not_elem_of_empty|reflexivity|reflexivity|].
    destruct Hpos as (w3 & H3 & _);
      [apply not_elem_of_empty|rewrite Hlh; reflexivity|].
    exists w2, w3. split; [reflexivity|]. by split.
  - eexists.
    edestruct (earlier_round_trip_across_threads Earlier.int_LP64 1 2 1
                 (Earlier.set_spurious [false; true] Earlier.pools)
                 (Some 10%positive))
      as (_ & w2 & H2 & _ & Hlh & _ & _ & Hneg);
      [apply not_elem_of_empty|reflexivity|reflexivity|].
    destruct (Hneg (not_elem_of_empty _) 11%positive
                {| bytes := 8; next := Some None; pool := None |} None)
      as (w3 & H3 & _);
      [rewrite Hlh; reflexivity| |reflexivity|].
    { revert H2. vm_compute. by intros [= <-]. }
    exists w2, w3. split; [reflexivity|]. by split.
Defined.

(** The earlier [deallocate] has no guard for a null pointer or a zero
    count.  [deallocate(nullptr, 1)] dereferences the null pointer;
    [deallocate(nullptr, n)] with [n != 1] hands the null pointer to
    [::operator delete], which does nothing; [deallocate(p, 0)] releases
    the block [p] with an announced size of zero bytes. *)
Theorem earlier_deallocate_is_unguarded T self w :
  Earlier.deallocate T self nullptr 1 w = Earlier.Undefined ∧
  (∀ n, n ≠ 1%Z → Earlier.deallocate T self nullptr n w = Earlier.Returns tt w) ∧
  (∀ a b, heap (Earlier.mem w) !! a = Some b →
     ∃ w', Earlier.deallocate T self (Some a) 0 w = Earlier.Returns tt w' ∧
           heap (Earlier.mem w') = delete a (heap (Earlier.mem w)) ∧
           trace (Earlier.mem w') = trace (Earlier.mem w) ++ [Delete a (Some 0%Z)] ∧
           Earlier.shared_head w' = Earlier.shared_head w).
Proof.
  split; [done|]. split.
  - intros n Hn. earlier_unfold. rewrite decide_False by done. simpl.
    by destruct w.
  - intros a b Hb. eexists. split.
    { earlier_unfold. earlier_crunch. reflexivity. }
    done.
Qed.

(** On the bulk path of the earlier variant request and release agree:
    the block of [allocate(n)], [n != 1], is requested with
    [n * sizeof(Node)] bytes and released by [deallocate(p, n)] with the
    same size, and the pair leaves heap and pools as they were.  This
    holds for [n = 0] too. *)
Theorem earlier_bulk_pair_sizes_agree T self self' n w p w1 :
  n ≠ 1%Z →
  Earlier.allocate T self n w = Earlier.Returns p w1 →
  ∃ a w2, p = Some a ∧
          Earlier.deallocate T self' p n w1 = Earlier.Returns tt w2 ∧
          trace (Earlier.mem w2) =
            trace (Earlier.mem w)
              ++ [New (size_mul n (sizeof_Node T)) a;
                  Delete a (Some (size_mul n (sizeof_Node T)))] ∧
          heap (Earlier.mem w2) = heap (Earlier.mem w) ∧
          Earlier.shared_head w2 = Earlier.shared_head w ∧
          Earlier.local_head w2 = Earlier.local_head w.
Proof.
  intros Hn. unfold Earlier.allocate, Earlier.alloc. rewrite decide_False by done.
  unfold mbind, Earlier.E_bind, Earlier.lift.
  destruct (operator_new _ (Earlier.mem w)) as [a s1|s1| |] eqn:Hnew; try done.
  apply operator_new_Ok in Hnew as (o & Ho & Hfresh & ->).
  intros [= <- <-]. exists a. eexists. split; [done|]. split.
  { earlier_unfold. earlier_crunch. reflexivity. }
  simpl. rewrite <-app_assoc. split; [done|].
  by rewrite delete_insert_eq, delete_id.
Qed.

Lemma earlier_bulk_pair_sizes_agree_witness :
  ∃ w1 w2,
    Earlier.allocate Earlier.int_LP64 1 3 Earlier.pools
      = Earlier.Returns (Some 13%positive) w1 ∧
    Earlier.deallocate Earlier.int_LP64 2 (Some 13%positive) 3 w1
      = Earlier.Returns tt w2 ∧
    trace (Earlier.mem w2) =
      trace (Earlier.mem Earlier.pools) ++ [New 24 13; Delete 13 (Some 24%Z)].
Proof.
  eexists.
  edestruct (earlier_bulk_pair_sizes_agree Earlier.int_LP64 1 2 3 Earlier.pools
               (Some 13%positive))
    as (a & w2 & [= <-] & H2 & Htr & _); [done|reflexivity|].
  exists w2. split; [reflexivity|]. by split.
Defined.

Lemma earlier_lift_delete a b w :
  heap (Earlier.mem w) !! a = Some b →
  Earlier.lift (operator_delete (Some a) None) w =
  Earlier.Returns tt
    {| Earlier.mem :=
         {| heap := delete a (heap (Earlier.mem w));
            sentinel := sentinel (Earlier.mem w);
            exited := exited (Earlier.mem w);
            oracle := oracle (Earlier.mem w);
            trace := trace (Earlier.mem w) ++ [Delete a None] |};
       Earlier.shared_head := Earlier.shared_head w;
       Earlier.local_head := Earlier.local_head w;
       Earlier.local_gone := Earlier.local_gone w;
       Earlier.spurious := Earlier.spurious w |}.
Proof. intros Hb. unfold Earlier.lift, operator_delete. by rewrite Hb. Qed.

(** The loop of [~SharedPool()] started at the head of the shared list
    [l]: it makes one attempt for each cell.  After an attempt that fails
    spuriously the head still points to the cell that has just been
    released, and the next iteration reads it. *)
Lemma shared_destroy_loop_spec l : ∀ fuel w,
  is_list (heap (Earlier.mem w)) (Earlier.shared_head w) l →
  length l < fuel →
  Earlier.SharedPool.destroy_loop fuel (Earlier.shared_head w) w =
  if decide (true ∈ take (length l) (Earlier.spurious w)) then Earlier.Undefined
  else
    Earlier.Returns tt
      {| Earlier.mem :=
           {| heap := foldl (λ h a, delete a h) (heap (Earlier.mem w)) l;
              sentinel := sentinel (Earlier.mem w);
              exited := exited (Earlier.mem w);
              oracle := oracle (Earlier.mem w);
              trace := trace (Earlier.mem w) ++ map (λ a, Delete a None) l |};
         Earlier.shared_head := None;
         Earlier.local_head := Earlier.local_head w;
         Earlier.local_gone := Earlier.local_gone w;
         Earlier.spurious := drop (length l) (Earlier.spurious w) |}.
Proof.
  induction l as [|a l IH]; intros fuel w Hl Hfuel.
  - inversion Hl as [Hnone|]. cbn [length take].
    rewrite decide_False by apply not_elem_of_nil.
    destruct w as [[h se ex o tr] sh lh lg sp].
    simpl in *. subst sh. rewrite app_nil_r. by destruct fuel.
  - inversion Hl as [|? b nxt ? Hb Hnx Hl' Hsh]; subst.
    pose proof (is_list_head_fresh (heap (Earlier.mem w)) a l) as Hfresh.
    rewrite <-Hsh in Hl. specialize (Hfresh Hl).
    destruct fuel as [|fuel]; simpl in Hfuel; [lia|].
    cbn [Earlier.SharedPool.destroy_loop].
    unfold mbind, Earlier.E_bind.
    rewrite (earlier_lift_read_next a b nxt w Hb Hnx).
    unfold Earlier.SharedPool.try_compare_exchange.
    rewrite decide_True by done.
    destruct (Earlier.spurious w) as [|[] sp] eqn:Hsp;
      cbn [Earlier.fails tail fst snd].
    + erewrite earlier_lift_delete by exact Hb.
      unfold Earlier.SharedPool.load.
      cbn [Earlier.shared_head Earlier.mem Earlier.local_head Earlier.local_gone
           Earlier.spurious heap sentinel exited oracle trace fst snd].
      set (w1 := {| Earlier.mem := _; Earlier.shared_head := nxt |}).
      assert (length l < fuel) as Hlen by lia.
      pose proof (IH fuel w1 (is_list_delete _ _ _ _ Hl' Hfresh) Hlen) as IH1.
      subst w1. cbn [Earlier.shared_head Earlier.mem Earlier.local_head
                     Earlier.local_gone Earlier.spurious heap sentinel exited
                     oracle trace] in IH1.
      rewrite IH1, take_nil. cbn [length take].
      rewrite !decide_False by apply not_elem_of_nil.
      by rewrite <-app_assoc, drop_nil.
    + rewrite <-Hsh. erewrite earlier_lift_delete by exact Hb.
      unfold Earlier.SharedPool.load.
      cbn [Earlier.shared_head Earlier.mem Earlier.local_head Earlier.local_gone
           Earlier.spurious Earlier.set_spurious
           heap sentinel exited oracle trace fst snd].
      rewrite decide_True by (simpl; by left). rewrite <-Hsh.
      destruct fuel as [|fuel]; [lia|].
      cbn [Earlier.SharedPool.destroy_loop].
      unfold mbind at 1, Earlier.E_bind at 1.
      unfold Earlier.lift, read_next, get_block, mbind, M_bind.
      simpl. by rewrite lookup_delete_eq.
    + erewrite earlier_lift_delete by exact Hb.
      unfold Earlier.SharedPool.load.
      cbn [Earlier.shared_head Earlier.mem Earlier.local_head Earlier.local_gone
           Earlier.spurious heap sentinel exited oracle trace fst snd].
      set (w1 := {| Earlier.mem := _; Earlier.shared_head := nxt |}).
      assert (length l < fuel) as Hlen by lia.
      pose proof (IH fuel w1 (is_list_delete _ _ _ _ Hl' Hfresh) Hlen) as IH1.
      subst w1. cbn [Earlier.shared_head Earlier.mem Earlier.local_head
                     Earlier.local_gone Earlier.spurious heap sentinel exited
                     oracle trace] in IH1.
      rewrite IH1. cbn [length take drop map foldl].
      destruct (decide (true ∈ take (length l) sp)) as [Hin|Hin].
      * rewrite decide_True; [done|]. by right.
      * rewrite decide_False; [by rewrite <-app_assoc|].
        intros Hin'. apply elem_of_cons in Hin' as [?|?]; done.
Qed.

(** [~SharedPool()] makes one attempt of [compare_exchange_weak] for each
    cell of the shared pool and ignores its result.  If none of these
    attempts fails spuriously, every cell of the shared pool is released
    to the system allocator, each once and in list order, and nothing
    else; the local pools are not looked at.  If one of them fails
    spuriously, the head is left pointing to the cell that is released
    next, and the loop reads the released cell: undefined behaviour. *)
Theorem earlier_shared_pool_destroy_releases_all w l :
  is_list (heap (Earlier.mem w)) (Earlier.shared_head w) l →
  if decide (true ∈ take (length l) (Earlier.spurious w))
  then Earlier.SharedPool.destroy w = Earlier.Undefined
  else
    ∃ w', Earlier.SharedPool.destroy w = Earlier.Returns tt w' ∧
          Earlier.shared_head w' = None ∧
          trace (Earlier.mem w') =
            trace (Earlier.mem w) ++ map (λ a, Delete a None) l ∧
          (∀ a, heap (Earlier.mem w') !! a =
                if decide (a ∈ l) then None else heap (Earlier.mem w) !! a) ∧
          Earlier.local_head w' = Earlier.local_head w.
Proof.
  intros Hl.
  assert (Earlier.SharedPool.destroy w =
          Earlier.SharedPool.destroy_loop (S (size (heap (Earlier.mem w))))
            (Earlier.shared_head w) w) as -> by done.
  rewrite (shared_destroy_loop_spec l); [|done|].
  - destruct (decide _); [done|]. eexists. split; [done|]. simpl.
    split; [done|]. split; [done|]. split; [|done].
    intros a. apply lookup_foldl_delete.
  - pose proof (is_list_length _ _ _ Hl). lia.
Qed.

Lemma earlier_pools_shared_list :
  is_list (heap (Earlier.mem Earlier.pools)) (Earlier.shared_head Earlier.pools)
    [10; 11]%positive.
Proof. apply walk_sound with (fuel := 2). reflexivity. Defined.

Lemma earlier_shared_pool_destroy_releases_all_witness :
  (∃ w', Earlier.SharedPool.destroy Earlier.pools = Earlier.Returns tt w' ∧
         trace (Earlier.mem w') =
           trace (Earlier.mem Earlier.pools) ++ [Delete 10 None; Delete 11 None]) ∧
  Earlier.SharedPool.destroy (Earlier.set_spurious [false; true] Earlier.pools)
    = Earlier.Undefined.
Proof.
  split.
  - pose proof (earlier_shared_pool_destroy_releases_all Earlier.pools
                  [10; 11]%positive earlier_pools_shared_list) as H.
    rewrite decide_False in H by (vm_compute; apply not_elem_of_nil).
    destruct H as (w' & Hw' & _ & Htr & _).
    exists w'. by split.
  - pose proof (earlier_shared_pool_destroy_releases_all
                  (Earlier.set_spurious [false; true] Earlier.pools)
                  [10; 11]%positive earlier_pools_shared_list) as H.
    rewrite decide_True in H; [exact H|].
    right. left.
Defined.

(** The loop of [~LocalPool()]: the cells of the local list [ll] are
    pushed onto the shared list [ls] one after the other. *)
Lemma local_destroy_loop_spec self ll : ∀ fuel w ls,
  self ∉ Earlier.local_gone w →
  is_list (heap (Earlier.mem w)) (Earlier.local_head w !! self) ll →
  is_list (heap (Earlier.mem w)) (Earlier.shared_head w) ls →
  (∀ a, a ∈ ll → a ∉ ls) →
  length ll ≤ fuel →
  ∃ w', Earlier.LocalPool.destroy_loop fuel self w = Earlier.Returns tt w' ∧
        is_list (heap (Earlier.mem w')) (Earlier.shared_head w') (rev ll ++ ls) ∧
        Earlier.local_head w' !! self = None ∧
        trace (Earlier.mem w') = trace (Earlier.mem w) ∧
        Earlier.local_gone w' = Earlier.local_gone w.
Proof.
  induction ll as [|p ll IH]; intros fuel w ls Hlive Hll Hls Hdis Hfuel.
  - inversion Hll as [Hnone|]. exists w. split; [|done].
    destruct fuel as [|fuel]; simpl.
    + by rewrite <-Hnone.
    + unfold Earlier.LocalPool.get, mbind, Earlier.E_bind.
      rewrite decide_False by done. by rewrite <-Hnone.
  - inversion Hll as [|? b nxt ? Hb Hnx Hll' Hhd]; subst.
    symmetry in Hhd.
    assert (p ∉ ll) as Hpl.
    { eapply is_list_head_fresh. rewrite Hhd in Hll. exact Hll. }
    assert (p ∉ ls) as Hpls by (apply Hdis; by left).
    destruct fuel as [|fuel]; simpl in Hfuel; [lia|].
    set (w1 := {| Earlier.mem :=
                    set_heap (<[p := {| bytes := bytes b;
                                        next := Some (Earlier.shared_head w);
                                        pool := pool b |}]>
                                (heap (Earlier.mem w))) (Earlier.mem w);
                  Earlier.shared_head := Some p;
                  Earlier.local_head := set_head self nxt (Earlier.local_head w);
                  Earlier.local_gone := Earlier.local_gone w;
                  Earlier.spurious := Earlier.after_retry (Earlier.spurious w) |}).
    assert (Earlier.LocalPool.destroy_loop (S fuel) self w =
            Earlier.LocalPool.destroy_loop fuel self w1) as ->.
    { cbn [Earlier.LocalPool.destroy_loop].
      unfold Earlier.LocalPool.get, Earlier.SharedPool.load, mbind, Earlier.E_bind.
      rewrite decide_False by done. rewrite Hhd.
      rewrite (earlier_lift_read_next p b nxt w Hb Hnx).
      unfold Earlier.LocalPool.assign. rewrite decide_False by done.
      erewrite earlier_lift_write_next by exact Hb.
      erewrite earlier_lift_read_next; [|apply lookup_insert_eq|reflexivity].
      erewrite (earlier_compare_exchange_push p);
        [done|apply lookup_insert_eq|reflexivity|reflexivity]. }
    destruct (IH fuel w1 (p :: ls)) as (w' & Hrun & Hlist & Hloc & Htr & Hgone).
    + done.
    + simpl. rewrite lookup_set_head_eq. by apply is_list_insert.
    + simpl. econstructor; [apply lookup_insert_eq|done|by apply is_list_insert].
    + intros a Ha Hin. apply elem_of_cons in Hin as [->|Hin]; [done|].
      apply (Hdis a); [by right|done].
    + lia.
    + exists w'. split; [done|]. split; [|done].
      simpl. by rewrite <-app_assoc.
Qed.

(** [~LocalPool()] gives the cells of the local pool to the shared pool
    and releases none.  It makes one attempt of [compare_exchange_weak] to
    install the local list as the shared one.  If the shared pool is empty
    and the attempt does not fail spuriously, the local list goes into the
    shared pool as it is.  Otherwise, also when the attempt fails
    spuriously into an empty shared pool, the cells are pushed one by one
    and end up in reverse order in front of the shared list. *)
Theorem earlier_local_pool_destroy_hands_over self w ll ls :
  self ∉ Earlier.local_gone w →
  is_list (heap (Earlier.mem w)) (Earlier.local_head w !! self) ll →
  is_list (heap (Earlier.mem w)) (Earlier.shared_head w) ls →
  (∀ a, a ∈ ll → a ∉ ls) →
  ∃ w', Earlier.LocalPool.destroy self w = Earlier.Returns tt w' ∧
        is_list (heap (Earlier.mem w')) (Earlier.shared_head w')
          (match ls with
           | [] => if Earlier.fails (Earlier.spurious w) then rev ll else ll
           | _ :: _ => rev ll ++ ls
           end) ∧
        trace (Earlier.mem w') = trace (Earlier.mem w) ∧
        self ∈ Earlier.local_gone w'.
Proof.
  intros Hlive Hll Hls Hdis.
  assert (length ll ≤ S (size (heap (Earlier.mem w)))) as Hfuel.
  { pose proof (is_list_length _ _ _ Hll). lia. }
  destruct (local_destroy_loop_spec self ll (S (size (heap (Earlier.mem w))))
              (Earlier.set_spurious (tail (Earlier.spurious w)) w) ls)
    as (w' & Hrun & Hlist & _ & Htr & Hgone); [done..|].
  unfold Earlier.LocalPool.destroy, Earlier.LocalPool.get,
    Earlier.SharedPool.try_compare_exchange, Earlier.LocalPool.end_of_lifetime,
    mbind, Earlier.E_bind.
  rewrite decide_False by done.
  destruct (Earlier.shared_head w) as [h|] eqn:Hsh.
  - rewrite decide_False by done. cbn -[Earlier.LocalPool.destroy_loop].
    cbn -[Earlier.LocalPool.destroy_loop] in Hrun.
    rewrite Hrun. eexists. split; [done|]. simpl.
    split; [by inversion Hls; subst|]. split; [done|].
    apply elem_of_union_l. by apply elem_of_singleton.
  - rewrite decide_True by done. inversion Hls; subst.
    destruct (Earlier.fails (Earlier.spurious w)).
    + cbn -[Earlier.LocalPool.destroy_loop].
      cbn -[Earlier.LocalPool.destroy_loop] in Hrun.
      rewrite Hrun. eexists. split; [done|]. simpl.
      rewrite app_nil_r in Hlist. split; [done|]. split; [done|].
      apply elem_of_union_l. by apply elem_of_singleton.
    + simpl. eexists. split; [done|]. simpl.
      split; [done|]. split; [done|].
      apply elem_of_union_l. by apply elem_of_singleton.
Qed.

Lemma earlier_pools_local_list :
  is_list (heap (Earlier.mem Earlier.pools))
    (Earlier.local_head Earlier.pools !! 2%positive) [12%positive].
Proof. apply walk_sound with (fuel := 1). reflexivity. Defined.

Lemma earlier_pools_disjoint :
  ∀ a : positive, a ∈ [12%positive] → a ∉ [10; 11]%positive.
Proof.
  intros a Ha Hin. apply elem_of_cons in Ha as [->|Ha];
    [|by apply elem_of_nil in Ha].
  apply elem_of_cons in Hin as [?|Hin]; [done|].
  apply elem_of_cons in Hin as [?|Hin]; [done|]. by apply elem_of_nil in Hin.
Defined.

Lemma earlier_local_only_list :
  is_list (heap (Earlier.mem Earlier.local_only))
    (Earlier.local_head Earlier.local_only !! 2%positive) [10; 11]%positive.
Proof. apply walk_sound with (fuel := 2). reflexivity. Defined.

Lemma earlier_local_pool_destroy_hands_over_witness :
  (∃ w', Earlier.LocalPool.destroy 2 Earlier.pools = Earlier.Returns tt w' ∧
         is_list (heap (Earlier.mem w')) (Earlier.shared_head w')
           [12; 10; 11]%positive) ∧
  (∃ w', Earlier.LocalPool.destroy 2 Earlier.local_only = Earlier.Returns tt w' ∧
         is_list (heap (Earlier.mem w')) (Earlier.shared_head w')
           [10; 11]%positive) ∧
  (∃ w', Earlier.LocalPool.destroy 2
           (Earlier.set_spurious [true] Earlier.local_only)
           = Earlier.Returns tt w' ∧
         is_list (heap (Earlier.mem w')) (Earlier.shared_head w')
           [11; 10]%positive).
Proof.
  split; [|split].
  - destruct (earlier_local_pool_destroy_hands_over 2 Earlier.pools
                [12%positive] [10; 11]%positive)
      as (w' & Hw' & Hlist & _).
    + apply not_elem_of_empty.
    + exact earlier_pools_local_list.
    + exact earlier_pools_shared_list.
    + exact earlier_pools_disjoint.
    + exists w'. by split.
  - destruct (earlier_local_pool_destroy_hands_over 2 Earlier.local_only
                [10; 11]%positive [])
      as (w' & Hw' & Hlist & _).
    + apply not_elem_of_empty.
    + exact earlier_local_only_list.
    + constructor.
    + intros a _. apply not_elem_of_nil.
    + exists w'. by split.
  - destruct (earlier_local_pool_destroy_hands_over 2
                (Earlier.set_spurious [true] Earlier.local_only)
                [10; 11]%positive [])
      as (w' & Hw' & Hlist & _).
    + apply not_elem_of_empty.
    + exact earlier_local_only_list.
    + constructor.
    + intros a _. apply not_elem_of_nil.
    + exists w'. by split.
Defined.
